(** * Bedrock model catalogue: the CRIS resolver and the explorer's aggregator

    A shallow embedding of the decision logic of the repository:

    - the TypeScript library ([isModelAvailable], [getAvailableRegions],
      [hasGlobalProfile], [getInferenceProfiles], [getInferenceTypes],
      [crisModelId], [globalModelId]) in module [Lib];
    - the explorer page ([hasInferenceType], [hasCRIS], [getInferenceTypes],
      [populateCrisRegions] and the filtering block of [showRegionMap]) in
      module [App].

    JavaScript objects that are used as dictionaries are finite maps, arrays
    are lists, a [Set] is a duplicate-free list in insertion order, and a
    function that may [throw] returns an [outcome]. The library reads the
    catalogue with keys that its caller supplies, so its property reads
    [get] also find what a plain object inherits from [Object.prototype];
    the page reads with keys it took from the catalogue. Strings are byte
    strings; the tags, region codes and model ids of the catalogue are
    ASCII. *)

From Stdlib Require Import Ascii NArith.
From stdpp Require Import base option list gmap strings sorting.

(** ** JavaScript values and helpers *)

(** A call either returns a value or throws: [new Error(message)], or a
    [TypeError] of the engine, whose message starts with its name. *)
Inductive outcome (A : Type) : Type :=
  | Return (a : A)
  | Throw (message : string).
Arguments Return {A} a.
Arguments Throw {A} message.

Definition bind {A B : Type} (c : outcome A) (k : A → outcome B) : outcome B :=
  match c with
  | Return a => k a
  | Throw message => Throw message
  end.

Notation "x ←! c ; k" := (bind c (λ x, k))
  (at level 20, c at level 100, k at level 200, right associativity,
   format "x  ←!  c ;  '/' k").

(** [Array.prototype.includes] on an array of strings. *)
Definition includes (x : string) (l : list string) : bool :=
  existsb (String.eqb x) l.

(** [Array.prototype.join]. *)
Definition join (sep : string) (l : list string) : string :=
  String.concat sep l.

(** [String.prototype.toLowerCase], on ASCII: the letters A-Z (65-90) move
    to a-z, every other byte stays. JavaScript also lowers letters outside
    ASCII; the embedding applies it to the tags and ids of the catalogue and
    to ASCII search text only. *)
Definition lower_ascii (c : ascii) : ascii :=
  let n := N_of_ascii c in
  if ((65 <=? n) && (n <=? 90))%N then ascii_of_N (n + 32) else c.

Fixpoint toLowerCase (s : string) : string :=
  match s with
  | EmptyString => EmptyString
  | String c s' => String (lower_ascii c) (toLowerCase s')
  end.

(** A JavaScript [Set] of strings: its elements in insertion order.
    [Set.prototype.add] appends a value that is not yet a member. *)
Definition set_add (x : string) (s : list string) : list string :=
  if includes x s then s else s ++ [x].

(** [xs.forEach(x => s.add(x))]. *)
Definition set_add_all (xs : list string) (s : list string) : list string :=
  foldl (λ acc x, set_add x acc) s xs.

(** [Array.prototype.sort] without a comparator, on strings: ascending in the
    order of the code units. *)
Definition sort (l : list string) : list string :=
  merge_sort String.le l.

(** The truth value of the result of an optional chain [a?.f(..)], where
    [None] stands for [undefined]. *)
Definition truthy (v : option bool) : bool := default false v.

(** [String.prototype.includes]: [search] occurs in [s] at some position. *)
Fixpoint String_includes (s search : string) : bool :=
  String.prefix search s ||
  match s with
  | EmptyString => false
  | String _ s' => String_includes s' search
  end.

(** The truth value of a string: only the empty string is falsy. *)
Definition truthy_string (s : string) : bool := negb (String.eqb s "").

(** The truth value of a property read [o[key]] that yields a string, where
    [None] stands for [undefined]. *)
Definition truthy_property (v : option string) : bool :=
  match v with
  | Some s => truthy_string s
  | None => false
  end.

(** *** Property reads on plain objects *)

(** The property names every plain object inherits from [Object.prototype]. *)
Definition Object_prototype : list string :=
  [ "constructor"; "hasOwnProperty"; "isPrototypeOf"; "propertyIsEnumerable";
    "toLocaleString"; "toString"; "valueOf"; "__proto__";
    "__defineGetter__"; "__defineSetter__"; "__lookupGetter__";
    "__lookupSetter__" ].

Definition inherited (key : string) : bool := includes key Object_prototype.

(** What a read [o[key]] yields: the value of an own property; the value
    inherited from [Object.prototype] under the name [key], which is a
    function (the prototype object itself for [__proto__]), hence truthy, no
    array, and without the fields [regions] and [inference_types] and the
    methods [includes], [filter] and [join]; or [undefined]. *)
Inductive value (A : Type) : Type :=
  | Own (a : A)
  | Inherited (key : string)
  | Undefined.
Arguments Own {A} a.
Arguments Inherited {A} key.
Arguments Undefined {A}.

(** [o[key]] on a plain object used as a dictionary. *)
Definition get {A : Type} (o : gmap string A) (key : string) : value A :=
  match o !! key with
  | Some a => Own a
  | None => if inherited key then Inherited key else Undefined
  end.

(** [v || []]: an array and an inherited value are truthy. *)
Definition or_empty (v : value (list string)) : value (list string) :=
  match v with
  | Undefined => Own []
  | _ => v
  end.

(** [x.f] with [x] undefined. *)
Definition TypeError_undefined (f : string) : string :=
  "TypeError: Cannot read properties of undefined (reading '" +:+ f +:+ "')".

(** [x.f(..)] with [x.f] undefined. *)
Definition TypeError_not_a_function (f : string) : string :=
  "TypeError: " +:+ f +:+ " is not a function".

(** ** The catalogue document *)

(** A profile topology of [inferenceProfile]: an array of regions (the GLOBAL
    shape) or an object from source region to target regions. *)
Inductive topology : Type :=
  | Flat (regions : list string)
  | SourceMap (targets : gmap string (list string)).

(** One value of [bedrock_models.json]. *)
Record ModelInfo : Type := mkModelInfo {
  regions : list string;
  inference_types : gmap string (list string);
  inferenceProfile : option (gmap string topology);
  model_lifecycle_status : option string
}.

(** ** The TypeScript library *)

Module Lib.

(** The messages of the four errors the library throws. *)
Definition ModelNotFoundError (id : string) : string :=
  "Model ID '" +:+ id +:+ "' not found in bedrock_models.json".

Definition UnavailableRegionError (id region : string) (rs : list string) : string :=
  "Model '" +:+ id +:+ "' is not available in region '" +:+ region +:+
  "'. Available regions: " +:+ join ", " rs.

Definition NoCrisSupportError (id region : string) (types : list string) : string :=
  "Model '" +:+ id +:+ "' does not support CRIS in region '" +:+ region +:+
  "'. Available inference types: " +:+ join ", " types.

Definition NoGlobalProfileError (id region : string) (types : list string) : string :=
  "Model '" +:+ id +:+ "' does not support global inference profile in region '" +:+
  region +:+ "'. Available inference types: " +:+ join ", " types.

Section WithData.
(** [const data = modelData as ModelDataMap]. *)
Variable data : gmap string ModelInfo.

Definition isModelAvailable (modelId region : string) : outcome bool :=
  let id := modelId in
  match get data id with
  | Undefined => Return false
  | Own model => Return (includes region (regions model))
  | Inherited _ =>
      (* model.regions is undefined *)
      Throw (TypeError_undefined "includes")
  end.

Definition getAvailableRegions (modelId : string) : outcome (value (list string)) :=
  let id := modelId in
  match get data id with
  | Undefined => Throw (ModelNotFoundError id)
  | Own model => Return (Own (regions model))
  | Inherited _ =>
      (* model.regions is undefined *)
      Return Undefined
  end.

Definition hasGlobalProfile (modelId region : string) : outcome bool :=
  let id := modelId in
  match get data id with
  | Undefined => Return false
  | Own model =>
      let inferenceTypes := or_empty (get (inference_types model) region) in
      match inferenceTypes with
      | Own types => Return (includes "GLOBAL" types)
      | _ => Throw (TypeError_not_a_function "inferenceTypes.includes")
      end
  | Inherited _ =>
      (* model.inference_types is undefined *)
      Throw (TypeError_undefined region)
  end.

Definition profilePrefixes : list string :=
  ["US"; "EU"; "CA"; "JP"; "AU"; "APAC"; "AP"; "GLOBAL"].

Definition getInferenceProfiles (modelId region : string) : outcome (list string) :=
  let id := modelId in
  match get data id with
  | Undefined => Return []
  | Own model =>
      let inferenceTypes := or_empty (get (inference_types model) region) in
      match inferenceTypes with
      | Own types => Return (List.filter (λ t, includes t profilePrefixes) types)
      | _ => Throw (TypeError_not_a_function "inferenceTypes.filter")
      end
  | Inherited _ => Throw (TypeError_undefined region)
  end.

Definition getInferenceTypes (modelId region : string)
    : outcome (value (list string)) :=
  let id := modelId in
  match get data id with
  | Undefined => Return (Own [])
  | Own model => Return (or_empty (get (inference_types model) region))
  | Inherited _ => Throw (TypeError_undefined region)
  end.

(** [t !== 'GLOBAL' && t !== 'ON_DEMAND' && t !== 'PROVISIONED'] *)
Definition isGeoProfile (t : string) : bool :=
  negb (String.eqb t "GLOBAL") && negb (String.eqb t "ON_DEMAND")
  && negb (String.eqb t "PROVISIONED").

Definition crisModelId (modelId region : string) : outcome string :=
  let id := modelId in
  match get data id with
  | Undefined => Throw (ModelNotFoundError id)
  | Inherited _ => Throw (TypeError_undefined "includes")
  | Own model =>
      if negb (includes region (regions model)) then
        Throw (UnavailableRegionError id region (regions model))
      else
        let inferenceTypes := or_empty (get (inference_types model) region) in
        match inferenceTypes with
        | Own types =>
            let availableGeoProfiles := List.filter isGeoProfile types in
            match availableGeoProfiles with
            | t0 :: _ =>
                let prefix := toLowerCase t0 in
                Return (prefix +:+ "." +:+ id)
            | [] =>
                if includes "GLOBAL" types then
                  Return ("global." +:+ id)
                else
                  Throw (NoCrisSupportError id region types)
            end
        | _ => Throw (TypeError_not_a_function "inferenceTypes.filter")
        end
  end.

Definition globalModelId (modelId region : string) : outcome string :=
  let id := modelId in
  has ←! hasGlobalProfile id region;
  if negb has then
    match get data id with
    | Undefined => Throw (ModelNotFoundError id)
    | Inherited _ => Throw (TypeError_undefined "includes")
    | Own model =>
        if negb (includes region (regions model)) then
          Throw (UnavailableRegionError id region (regions model))
        else
          let inferenceTypes := or_empty (get (inference_types model) region) in
          match inferenceTypes with
          | Own types => Throw (NoGlobalProfileError id region types)
          | _ => Throw (TypeError_not_a_function "inferenceTypes.join")
          end
    end
  else Return ("global." +:+ id).
End WithData.

End Lib.

(** ** The explorer page *)

Module App.

(** An element of [allModels]: [{ id, ...info }]. *)
Record Model : Type := mkModel {
  id : string;
  info :> ModelInfo
}.

(** [Object.entries(data).map(([id, info]) => ({ id, ...info }))] *)
Definition init_allModels (data : gmap string ModelInfo) : list Model :=
  (λ entry, mkModel entry.1 entry.2) <$> map_to_list data.

Definition CRIS_REGIONS : list (string * string) :=
  [ ("GLOBAL", "Global CRIS"); ("US", "US CRIS"); ("EU", "EU CRIS");
    ("APAC", "APAC CRIS"); ("JP", "Japan CRIS"); ("AU", "Australia CRIS");
    ("CA", "Canada CRIS") ].

Definition Object_keys {V : Type} (o : list (string * V)) : list string := o.*1.

(** [Object.values] of an object used as a dictionary. *)
Definition Object_values {V : Type} (o : gmap string V) : list V :=
  (map_to_list o).*2.

(** The optional [region] parameter is tested with [if (region)]: a missing
    argument ([None]) and the empty string, which is the value of
    [selectedRegion] for "All Regions", both count as no region. A region
    that is given is a value of the region dropdown or a key of the coverage
    map, that is a region code of the catalogue: the page's reads
    [model.inference_types[region]] are modelled for such keys, not for the
    names of [Object_prototype]. *)
Definition given (region : option string) : option string :=
  match region with
  | Some r => if String.eqb r "" then None else Some r
  | None => None
  end.

Definition hasInferenceType (model : Model) (type : string)
    (region : option string) : option bool :=
  match given region with
  | Some r =>
      (* model.inference_types[region]?.includes(type) *)
      includes type <$> (inference_types model !! r)
  | None =>
      Some (existsb (λ types, includes type types)
              (Object_values (inference_types model)))
  end.

Definition hasCRIS (model : Model) (region : option string) : option bool :=
  let crisTypes := Object_keys CRIS_REGIONS in
  match given region with
  | Some r =>
      let typesAtRegion := inference_types model !! r in
      (λ types, existsb (λ type, includes type crisTypes) types) <$> typesAtRegion
  | None =>
      Some (existsb (λ types, existsb (λ type, includes type crisTypes) types)
              (Object_values (inference_types model)))
  end.

Definition getInferenceTypes (model : Model) : list string :=
  let types :=
    foldl (λ types typeList, set_add_all typeList types) []
      (Object_values (inference_types model)) in
  types.

(** *** populateCrisRegions *)

(** A value of the local [regionSets]: a [Set] (which, being an object, can
    also receive properties of its own) or a plain object from source region
    to [Set]. Property names are profile names and region codes; the names a
    JavaScript object inherits from its prototype are not among them. *)
Inductive regionSet : Type :=
  | ASet (elems : list string) (props : gmap string (list string))
  | AObj (props : gmap string (list string)).

Definition props_of (rs : regionSet) : gmap string (list string) :=
  match rs with
  | ASet _ props => props
  | AObj props => props
  end.

Definition with_props (rs : regionSet) (props : gmap string (list string)) : regionSet :=
  match rs with
  | ASet elems _ => ASet elems props
  | AObj _ => AObj props
  end.

(** [regionSets[profile].add is not a function] *)
Definition TypeError_add : string :=
  "TypeError: regionSets[profile].add is not a function".

Fixpoint foldM {A B : Type} (f : B → A → outcome B) (b : B) (l : list A) : outcome B :=
  match l with
  | [] => Return b
  | a :: l' => b' ←! f b a; foldM f b' l'
  end.

(** The body of [Object.entries(data).forEach(([source, targets]) => ...)]. *)
Definition add_targets (props : gmap string (list string))
    (entry : string * list string) : gmap string (list string) :=
  let '(source, targets) := entry in
  let props :=
    match props !! source with
    | None => <[source := []]> props
    | Some _ => props
    end in
  <[source := set_add_all targets (default [] (props !! source))]> props.

(** The body of [Object.entries(model.inferenceProfile).forEach]. *)
Definition add_profile (regionSets : gmap string regionSet)
    (entry : string * topology) : outcome (gmap string regionSet) :=
  let '(profile, data) := entry in
  match data with
  | Flat rs =>
      let regionSets :=
        match regionSets !! profile with
        | None => <[profile := ASet [] ∅]> regionSets
        | Some _ => regionSets
        end in
      match regionSets !! profile, rs with
      | Some (ASet elems props), _ =>
          Return (<[profile := ASet (set_add_all rs elems) props]> regionSets)
      | Some (AObj _), _ :: _ => Throw TypeError_add
      | _, _ => Return regionSets
      end
  | SourceMap targets =>
      let regionSets :=
        match regionSets !! profile with
        | None => <[profile := AObj ∅]> regionSets
        | Some _ => regionSets
        end in
      match regionSets !! profile with
      | Some rset =>
          Return (<[profile :=
                     with_props rset
                       (foldl add_targets (props_of rset) (map_to_list targets))]>
                    regionSets)
      | None => Return regionSets
      end
  end.

(** The body of [allModels.forEach(model => ...)]. *)
Definition add_model (regionSets : gmap string regionSet) (model : Model)
    : outcome (gmap string regionSet) :=
  match inferenceProfile model with
  | Some profiles => foldM add_profile regionSets (map_to_list profiles)
  | None => Return regionSets
  end.

(** An entry of [CRIS_PROFILE_REGIONS]. *)
Inductive coverage : Type :=
  | Global (regions : list string)
  | Regional (sources : gmap string (list string)).

(** The conversion of one [regionSets] entry: [data instanceof Set] selects
    the array form. *)
Definition to_coverage (data : regionSet) : coverage :=
  match data with
  | ASet elems _ => Global (sort elems)
  | AObj props => Regional (sort <$> props)
  end.

(** The new value of [CRIS_PROFILE_REGIONS]; when the loop throws, the
    assignment is not reached. *)
Definition populateCrisRegions (allModels : list Model)
    : outcome (gmap string coverage) :=
  regionSets ←! foldM add_model ∅ allModels;
  Return (to_coverage <$> regionSets).

(** *** showRegionMap: the profile data that is drawn *)

(** The value of [profileData] after the filtering block of [showRegionMap];
    [None] when the function returns early because the profile is unknown. *)
Definition showRegionMap_profileData
    (CRIS_PROFILE_REGIONS : gmap string coverage) (allModels : list Model)
    (crisType modelId : string) : option coverage :=
  match CRIS_PROFILE_REGIONS !! crisType with
  | None => None
  | Some profileData =>
      match List.find (λ m, String.eqb (id m) modelId) allModels with
      | Some model =>
          match profileData with
          | Global regions =>
              Some (Global
                (List.filter
                   (λ region, truthy (hasInferenceType model crisType (Some region)))
                   regions))
          | Regional sources =>
              Some (Regional
                (filter
                   (λ kv : string * list string,
                      Is_true (truthy (hasInferenceType model crisType (Some kv.1))))
                   sources))
          end
      | None => Some profileData
      end
  end.

(** *** populateRegionFilter *)

(** The options appended to the region dropdown, each with its
    [dataset.value] and its text: "All Regions" with the empty value, then
    one option per region of the catalogue. *)
Definition populateRegionFilter (allModels : list Model) : list (string * string) :=
  let seen := foldl (λ acc (model : Model), set_add_all (regions model) acc) [] allModels in
  let sortedRegions := sort seen in
  ("", "All Regions") :: ((λ region, (region, region)) <$> sortedRegions).

(** *** filterModels *)

(** The new value of [filteredModels], from the text of the search box and
    the two dropdown selections. The search text is lowered with
    [toLowerCase], so it is taken to be ASCII. *)
Definition filterModels (allModels : list Model)
    (searchInput selectedRegion selectedType : string) : list Model :=
  let searchTerm := toLowerCase searchInput in
  List.filter (λ model : Model,
    let matchesSearch := String_includes (toLowerCase (id model)) searchTerm in
    let matchesRegion :=
      negb (truthy_string selectedRegion) || includes selectedRegion (regions model) in
    let matchesType :=
      if String.eqb selectedType "global-cris" then
        hasInferenceType model "GLOBAL" (Some selectedRegion)
      else if String.eqb selectedType "cris" then
        hasCRIS model (Some selectedRegion)
      else if String.eqb selectedType "on-demand" then
        hasInferenceType model "ON_DEMAND" (Some selectedRegion)
      else Some true in
    matchesSearch && matchesRegion && truthy matchesType) allModels.

(** *** renderModels: the badges of a card *)

(** [CRIS_REGIONS[type]], for a type that is a tag of the catalogue; the names
    an object inherits from its prototype are not among them. *)
Definition CRIS_REGIONS_at (type : string) : option string :=
  snd <$> List.find (λ entry, String.eqb entry.1 type) CRIS_REGIONS.

(** The inference badges of the card of [model]: each type with the value of
    [isDisabled], first the cross-region badges, then the others. *)
Definition renderModels_crisBadges (model : Model) (selectedRegion : string)
    : list (string * bool) :=
  let inferenceTypes := getInferenceTypes model in
  let crisTypes := List.filter (λ type, truthy_property (CRIS_REGIONS_at type)) inferenceTypes in
  (λ type,
     let isDisabled :=
       truthy_string selectedRegion &&
       negb (truthy (hasInferenceType model type (Some selectedRegion))) in
     (type, isDisabled)) <$> crisTypes.

Definition renderModels_otherBadges (model : Model) (selectedRegion : string)
    : list (string * bool) :=
  let inferenceTypes := getInferenceTypes model in
  let otherTypes :=
    List.filter (λ type, negb (truthy_property (CRIS_REGIONS_at type))) inferenceTypes in
  (λ type,
     let isDisabled :=
       truthy_string selectedRegion &&
       negb (truthy (hasInferenceType model type (Some selectedRegion))) in
     (type, isDisabled)) <$> otherTypes.

(** *** showAllRegions *)

(** One row of the regions modal: the region and its three icons. *)
Record RegionRow : Type := mkRegionRow {
  row_region : string;
  isGlobal : bool;
  isCris : bool;
  isOnDemand : bool
}.

(** What the regions modal shows: the three legend entries [hasGlobal],
    [hasCris], [hasOnDemand] and the rows; [None] when the model is not found
    and the function returns at once. *)
Definition showAllRegions (allModels : list Model) (modelId : string)
    : option (bool * bool * bool * list RegionRow) :=
  match List.find (λ m, String.eqb (id m) modelId) allModels with
  | None => None
  | Some model =>
      let modelTypes :=
        foldl (λ acc r, set_add_all (default [] (inference_types model !! r)) acc)
          [] (regions model) in
      let hasGlobal := includes "GLOBAL" modelTypes in
      let hasCris :=
        existsb (λ t, truthy_property (CRIS_REGIONS_at t) && negb (String.eqb t "GLOBAL"))
          modelTypes in
      let hasOnDemand := includes "ON_DEMAND" modelTypes in
      let rows :=
        (λ region,
           let types := default [] (inference_types model !! region) in
           mkRegionRow region
             (includes "GLOBAL" types)
             (existsb (λ t, truthy_property (CRIS_REGIONS_at t) && negb (String.eqb t "GLOBAL"))
                types)
             (includes "ON_DEMAND" types)) <$> regions model in
      Some (hasGlobal, hasCris, hasOnDemand, rows)
  end.

End App.

(** ** The explorer page, before profiles had source maps *)

(** The first revision of the page that draws a map takes every value of
    [inferenceProfile] for an array of regions. *)
Module App1.

(** [regions.forEach is not a function] *)
Definition TypeError_forEach : string :=
  "TypeError: regions.forEach is not a function".

(** The body of [Object.entries(model.inferenceProfile).forEach]. *)
Definition add_profile (regionSets : gmap string (list string))
    (entry : string * topology) : outcome (gmap string (list string)) :=
  let '(profile, regions) := entry in
  let regionSets :=
    match regionSets !! profile with
    | None => <[profile := []]> regionSets
    | Some _ => regionSets
    end in
  match regions with
  | Flat rs =>
      Return (<[profile := set_add_all rs (default [] (regionSets !! profile))]> regionSets)
  | SourceMap _ => Throw TypeError_forEach
  end.

Definition add_model (regionSets : gmap string (list string)) (model : App.Model)
    : outcome (gmap string (list string)) :=
  match inferenceProfile (App.info model) with
  | Some profiles => App.foldM add_profile regionSets (map_to_list profiles)
  | None => Return regionSets
  end.

Definition populateCrisRegions (allModels : list App.Model)
    : outcome (gmap string (list string)) :=
  regionSets ←! App.foldM add_model ∅ allModels;
  Return (sort <$> regionSets).

End App1.

(** ** Vocabulary of the statements *)

(** The tags recorded for a model at a region: those of the own property
    [region] of [model.inference_types], none when there is no such
    property. *)
Definition typesAt (model : ModelInfo) (region : string) : list string :=
  default [] (inference_types model !! region).

(** The string [x] occurs in the message [s]. *)
Definition occurs (x s : string) : Prop := ∃ a b, s = a +:+ x +:+ b.

(** A geo tag is a tag other than GLOBAL, ON_DEMAND and PROVISIONED. *)
Definition geo_tag (t : string) : Prop :=
  t ≠ "GLOBAL" ∧ t ≠ "ON_DEMAND" ∧ t ≠ "PROVISIONED".

(** [t] is the smallest string of [l] in the lexicographic order. *)
Definition lex_smallest (t : string) (l : list string) : Prop :=
  t ∈ l ∧ ∀ u, u ∈ l → String.le t u.

(** *** The profile aggregator *)

(** The profiles a model declares, as [Object.entries(model.inferenceProfile)]
    lists them; none when the field is missing. *)
Definition entries_of (model : App.Model) : list (string * topology) :=
  match inferenceProfile (App.info model) with
  | Some profiles => map_to_list profiles
  | None => []
  end.

Definition entries (allModels : list App.Model) : list (string * topology) :=
  allModels ≫= entries_of.

Definition declares (model : App.Model) (profile : string) (data : topology) : Prop :=
  ∃ profiles, inferenceProfile (App.info model) = Some profiles ∧
              profiles !! profile = Some data.

Definition is_flat (data : topology) : bool :=
  match data with
  | Flat _ => true
  | SourceMap _ => false
  end.

(** No profile name is declared with the array shape by one model and with
    the object shape by another. *)
Definition shape_consistent (allModels : list App.Model) : Prop :=
  ∀ m1 m2 profile d1 d2,
    m1 ∈ allModels → m2 ∈ allModels →
    declares m1 profile d1 → declares m2 profile d2 →
    is_flat d1 = is_flat d2.

(** A list is sorted lexicographically and free of duplicates. *)
Definition strictly_sorted (l : list string) : Prop :=
  NoDup l ∧ Sorted String.le l.

(** Every region list of a coverage map is sorted and free of duplicates. *)
Definition coverage_sorted (cov : gmap string App.coverage) : Prop :=
  (∀ profile regions,
     cov !! profile = Some (App.Global regions) → strictly_sorted regions) ∧
  (∀ profile sources source targets,
     cov !! profile = Some (App.Regional sources) →
     sources !! source = Some targets → strictly_sorted targets).

(** A test of shape consistency that can be run on a concrete catalogue. *)
Definition consistentb (E : list (string * topology)) : bool :=
  forallb (λ e1,
    forallb (λ e2,
      if String.eqb e1.1 e2.1 then Bool.eqb (is_flat e1.2) (is_flat e2.2) else true) E) E.

(** *** Invariants of [regionSets] *)

(** Every set is free of duplicates. *)
Definition elems_of (rset : App.regionSet) : list string :=
  match rset with
  | App.ASet elems _ => elems
  | App.AObj _ => []
  end.

Definition sets_nodup (regionSets : gmap string App.regionSet) : Prop :=
  ∀ p rset, regionSets !! p = Some rset →
    NoDup (elems_of rset) ∧ ∀ s l, App.props_of rset !! s = Some l → NoDup l.

(** The content of [regionSets] after the entries [E] have been merged, said
    through membership in [E] alone. *)
Section Denotation.
Variable E : list (string * topology).

Definition has_flat (p : string) : Prop := ∃ rs, (p, Flat rs) ∈ E.
Definition has_map (p : string) : Prop := ∃ t, (p, SourceMap t) ∈ E.
Definition flat_region (p r : string) : Prop :=
  ∃ rs, (p, Flat rs) ∈ E ∧ r ∈ rs.
Definition has_source (p s : string) : Prop :=
  ∃ t ts, (p, SourceMap t) ∈ E ∧ t !! s = Some ts.
Definition target (p s r : string) : Prop :=
  ∃ t ts, (p, SourceMap t) ∈ E ∧ t !! s = Some ts ∧ r ∈ ts.

Definition props_inv (p : string) (props : gmap string (list string)) : Prop :=
  ∀ s, match props !! s with
       | Some elems => has_source p s ∧ ∀ r, r ∈ elems ↔ target p s r
       | None => ¬ has_source p s
       end.

Definition slot_inv (p : string) (o : option App.regionSet) : Prop :=
  match o with
  | Some (App.ASet elems _) =>
      has_flat p ∧ ¬ has_map p ∧ ∀ r, r ∈ elems ↔ flat_region p r
  | Some (App.AObj props) => has_map p ∧ ¬ has_flat p ∧ props_inv p props
  | None => ¬ has_flat p ∧ ¬ has_map p
  end.
End Denotation.

Definition Inv (E : list (string * topology))
    (regionSets : gmap string App.regionSet) : Prop :=
  ∀ p, slot_inv E p (regionSets !! p).

Definition consistent (E : list (string * topology)) : Prop :=
  ∀ p d1 d2, (p, d1) ∈ E → (p, d2) ∈ E → is_flat d1 = is_flat d2.

(** ** Example catalogues *)

Definition sonnet : string := "anthropic.claude-3-5-sonnet-20241022-v2:0".
Definition nova : string := "amazon.nova-2-lite-v1:0".

Definition sonnet_info : ModelInfo :=
  mkModelInfo ["us-east-1"; "us-west-2"; "eu-west-1"]
    {[ "us-east-1" := ["US"; "ON_DEMAND"];
       "us-west-2" := ["ON_DEMAND"; "US"; "GLOBAL"];
       "eu-west-1" := ["ON_DEMAND"] ]}
    None (Some "ACTIVE").

Definition nova_info : ModelInfo :=
  mkModelInfo ["eu-west-2"; "us-east-1"]
    {[ "eu-west-2" := ["GLOBAL"]; "us-east-1" := ["US"; "EU"; "GLOBAL"] ]}
    None (Some "ACTIVE").

Definition catalog : gmap string ModelInfo :=
  {[ sonnet := sonnet_info; nova := nova_info ]}.



(** A catalogue with a geo tag that reads "global" in lower case. *)
Definition mixed_case_info : ModelInfo :=
  mkModelInfo ["us-east-1"] {[ "us-east-1" := ["Global"; "GLOBAL"] ]}
    None (Some "ACTIVE").

Definition mixed_case_catalog : gmap string ModelInfo := {[ nova := mixed_case_info ]}.

(** A catalogue whose region list holds the empty string, a region without
    an entry in the tag index, and a region named like an inherited
    property. *)
Definition blank_info : ModelInfo :=
  mkModelInfo [""; "us-east-1"; "eu-west-1"; "constructor"]
    {[ "" := ["ON_DEMAND"]; "us-east-1" := ["US"; "ON_DEMAND"] ]}
    None (Some "ACTIVE").

Definition blank_catalog : gmap string ModelInfo := {[ nova := blank_info ]}.

(** A model of the US profile: the tag at us-east-1 only, and the coverage
    map its profiles aggregate to. *)
Definition us_model : App.Model :=
  App.mkModel "meta.llama3-3-70b-instruct-v1:0"
    (mkModelInfo ["us-east-1"; "us-west-2"]
       {[ "us-east-1" := ["US"; "ON_DEMAND"]; "us-west-2" := ["ON_DEMAND"] ]}
       (Some {[ "US" := SourceMap {[ "us-east-1" := ["us-west-2"; "us-east-1"] ]};
                "GLOBAL" := Flat ["us-west-2"; "us-east-1"; "us-west-2"] ]})
       (Some "ACTIVE")).

Definition us_coverage : gmap string App.coverage :=
  {[ "US" := App.Regional {[ "us-east-1" := ["us-east-1"; "us-west-2"] ]};
     "GLOBAL" := App.Global ["us-east-1"; "us-west-2"] ]}.

(** Two models that declare the profile APAC with different shapes, and a
    model that agrees in shape with [us_model]. *)
Definition flat_model : App.Model :=
  App.mkModel "amazon.nova-pro-v1:0"
    (mkModelInfo ["us-east-1"] {[ "us-east-1" := ["APAC"] ]}
       (Some {[ "APAC" := Flat ["ap-south-1"; "ap-northeast-1"] ]}) (Some "ACTIVE")).

Definition map_model : App.Model :=
  App.mkModel "amazon.nova-lite-v1:0"
    (mkModelInfo ["ap-south-1"] {[ "ap-south-1" := ["APAC"] ]}
       (Some {[ "APAC" := SourceMap {[ "ap-south-1" := ["ap-northeast-1"; "ap-south-1"] ]} ]})
       (Some "ACTIVE")).

Definition eu_model : App.Model :=
  App.mkModel "mistral.pixtral-large-2502-v1:0"
    (mkModelInfo ["eu-west-1"] {[ "eu-west-1" := ["EU"; "GLOBAL"] ]}
       (Some {[ "EU" := SourceMap {[ "eu-west-1" := ["eu-west-3"; "eu-west-1"; "eu-central-1"] ]};
                "GLOBAL" := Flat ["us-east-1"; "eu-west-1"] ]})
       (Some "ACTIVE")).

(** The catalogue document that holds [us_model] and [eu_model]. *)
Definition explorer_data : gmap string ModelInfo :=
  {[ "meta.llama3-3-70b-instruct-v1:0" := App.info us_model;
     "mistral.pixtral-large-2502-v1:0" := App.info eu_model ]}.

(** Membership or non-membership in a concrete list, by evaluation. *)
Ltac in_list := apply (bool_decide_unpack _); vm_compute; exact I.

(** ** Facts about the helpers *)

Lemma includes_spec (x : string) (l : list string) :
  includes x l = true ↔ x ∈ l.
Proof.
  unfold includes. rewrite existsb_exists. split.
  - intros (y & Hy & Heq). apply String.eqb_eq in Heq. subst y.
    by apply list_elem_of_In.
  - intros Hx. exists x. split; [by apply list_elem_of_In|apply String.eqb_refl].
Qed.

Lemma includes_false (x : string) (l : list string) :
  includes x l = false ↔ x ∉ l.
Proof.
  rewrite <-includes_spec. destruct (includes x l); split; congruence.
Qed.

Lemma isGeoProfile_spec (t : string) :
  Lib.isGeoProfile t = true ↔ geo_tag t.
Proof.
  unfold Lib.isGeoProfile, geo_tag.
  rewrite !andb_true_iff, !negb_true_iff, !String.eqb_neq. tauto.
Qed.

Lemma isGeoProfile_false (t : string) :
  Lib.isGeoProfile t = false ↔ ¬ geo_tag t.
Proof.
  rewrite <-isGeoProfile_spec. destruct (Lib.isGeoProfile t); split; congruence.
Qed.

Lemma filter_skip_prefix (f : string → bool) (pre post : list string) (t0 : string) :
  (∀ t, t ∈ pre → f t = false) → f t0 = true →
  List.filter f (pre ++ t0 :: post) = t0 :: List.filter f post.
Proof.
  intros Hpre Ht0. induction pre as [|p pre IH]; simpl.
  - by rewrite Ht0.
  - rewrite (Hpre p) by left. apply IH. intros t Ht. apply Hpre. by right.
Qed.

Lemma filter_none (f : string → bool) (l : list string) :
  (∀ t, t ∈ l → f t = false) → List.filter f l = [].
Proof.
  intros Hl. induction l as [|x l IH]; simpl; [done|].
  rewrite (Hl x) by left. apply IH. intros t Ht. apply Hl. by right.
Qed.

(** The first element a filter keeps, with the elements before it. *)
Lemma filter_first (f : string → bool) (l : list string) (t : string) :
  t ∈ l → f t = true →
  ∃ pre t0 post, l = pre ++ t0 :: post ∧ (∀ u, u ∈ pre → f u = false) ∧ f t0 = true.
Proof.
  induction l as [|x l IH]; intros Ht Hf; [by apply elem_of_nil in Ht|].
  destruct (f x) eqn:Hx.
  - exists [], x, l. split; [done|]. split; [|done].
    intros u Hu. by apply elem_of_nil in Hu.
  - apply elem_of_cons in Ht as [->|Ht]; [congruence|].
    destruct (IH Ht Hf) as (pre & t0 & post & -> & Hpre & Ht0).
    exists (x :: pre), t0, post. split; [done|]. split; [|done].
    intros u [->|Hu]%elem_of_cons; auto.
Qed.

Lemma string_length_app (s1 s2 : string) :
  String.length (s1 +:+ s2) = String.length s1 + String.length s2.
Proof. induction s1 as [|c s1 IH]; simpl; [done|]. by rewrite IH. Qed.

(** Appending the same suffix is injective. *)
Lemma string_app_inj_r (s1 s2 x : string) :
  s1 +:+ x = s2 +:+ x → s1 = s2.
Proof.
  revert s2. induction s1 as [|c s1 IH]; intros [|c2 s2] Heq; simpl in *.
  - done.
  - apply (f_equal String.length) in Heq.
    rewrite !string_length_app in Heq. simpl in Heq.
    rewrite ?string_length_app in Heq. lia.
  - apply (f_equal String.length) in Heq.
    rewrite !string_length_app in Heq. simpl in Heq.
    rewrite ?string_length_app in Heq. lia.
  - injection Heq as -> Heq. f_equal. by apply IH.
Qed.

(** ** Property reads *)

Lemma get_Some {A : Type} (o : gmap string A) (key : string) (a : A) :
  o !! key = Some a → get o key = Own a.
Proof. intros Hl. unfold get. by rewrite Hl. Qed.


Lemma get_Inherited {A : Type} (o : gmap string A) (key : string) :
  o !! key = None → inherited key = true → get o key = Inherited key.
Proof. intros Hl Hkey. unfold get. by rewrite Hl, Hkey. Qed.

(** A read that does not reach the prototype yields the recorded list, or
    the empty list for a missing property. *)
Lemma or_empty_get (o : gmap string (list string)) (key : string) :
  (o !! key = None → inherited key = false) →
  or_empty (get o key) = Own (default [] (o !! key)).
Proof.
  intros Hkey. unfold get. destruct (o !! key); [done|]. by rewrite Hkey.
Qed.

Lemma or_empty_get_inherited (o : gmap string (list string)) (key : string) :
  o !! key = None → inherited key = true → or_empty (get o key) = Inherited key.
Proof. intros Hl Hkey. by rewrite (get_Inherited o key Hl Hkey). Qed.

(** A region with a recorded tag has an own entry in the tag index. *)
Lemma recorded_own (model : ModelInfo) (region t : string) :
  t ∈ typesAt model region →
  inference_types model !! region = None → inherited region = false.
Proof.
  unfold typesAt. intros Ht Hnone. rewrite Hnone in Ht. by apply elem_of_nil in Ht.
Qed.

(** ** Strings that occur in a message *)

Lemma string_app_assoc (s1 s2 s3 : string) :
  (s1 +:+ s2) +:+ s3 = s1 +:+ s2 +:+ s3.
Proof.
  induction s1 as [|c s1 IH]; [done|].
  change (String c ((s1 +:+ s2) +:+ s3) = String c (s1 +:+ s2 +:+ s3)). by f_equal.
Qed.

Lemma string_app_nil_r (s : string) : s +:+ "" = s.
Proof.
  induction s as [|c s IH]; [done|].
  change (String c (s +:+ "") = String c s). by f_equal.
Qed.

Lemma occurs_here (x b : string) : occurs x (x +:+ b).
Proof. by exists "", b. Qed.

Lemma occurs_app_r (x s p : string) : occurs x s → occurs x (p +:+ s).
Proof. intros (a & b & ->). exists (p +:+ a), b. by rewrite !string_app_assoc. Qed.

Lemma occurs_app_l (x s q : string) : occurs x s → occurs x (s +:+ q).
Proof.
  intros (a & b & ->). exists a, (b +:+ q). by rewrite !string_app_assoc.
Qed.

(** Every element of a list occurs in the joined list. *)
Lemma occurs_join (sep : string) (l : list string) (t : string) :
  t ∈ l → occurs t (join sep l).
Proof.
  unfold join. induction l as [|x l IH]; [by intros ?%elem_of_nil|].
  intros [->|Ht]%elem_of_cons; destruct l as [|y l].
  - exists "", "". by rewrite string_app_nil_r.
  - apply occurs_here.
  - by apply elem_of_nil in Ht.
  - change (String.concat sep (x :: y :: l))
      with (x +:+ sep +:+ String.concat sep (y :: l)).
    by apply occurs_app_r, occurs_app_r, IH.
Qed.

(** ** The resolver of the library *)

Section Resolver.
Variable data : gmap string ModelInfo.
Variables (id : string) (model : ModelInfo).
Hypothesis Hmodel : data !! id = Some model.


Lemma crisModelId_available (region : string) :
  region ∈ regions model →
  (inference_types model !! region = None → inherited region = false) →
  Lib.crisModelId data id region =
    match List.filter Lib.isGeoProfile (typesAt model region) with
    | t0 :: _ => Return (toLowerCase t0 +:+ "." +:+ id)
    | [] =>
        if includes "GLOBAL" (typesAt model region)
        then Return ("global." +:+ id)
        else Throw (Lib.NoCrisSupportError id region (typesAt model region))
    end.
Proof.
  intros Hin%includes_spec Hkey. unfold Lib.crisModelId, typesAt.
  by rewrite (get_Some data id model Hmodel), Hin, (or_empty_get _ _ Hkey).
Qed.

Lemma crisModelId_inherited (region : string) :
  region ∈ regions model →
  inference_types model !! region = None → inherited region = true →
  Lib.crisModelId data id region =
    Throw (TypeError_not_a_function "inferenceTypes.filter").
Proof.
  intros Hin%includes_spec Hnone Hkey. unfold Lib.crisModelId.
  by rewrite (get_Some data id model Hmodel), Hin,
    (or_empty_get_inherited _ _ Hnone Hkey).
Qed.

Lemma crisModelId_skips_prefix (region : string) (pre post : list string) (t0 : string) :
  region ∈ regions model →
  typesAt model region = pre ++ t0 :: post →
  (∀ t, t ∈ pre → ¬ geo_tag t) → geo_tag t0 →
  Lib.crisModelId data id region = Return (toLowerCase t0 +:+ "." +:+ id).
Proof.
  intros Hin Hsplit Hpre Ht0. rewrite crisModelId_available; [|done|].
  - rewrite Hsplit, filter_skip_prefix; [done| |by apply isGeoProfile_spec].
    intros t Ht. by apply isGeoProfile_false, Hpre.
  - apply (recorded_own model region t0). rewrite Hsplit. set_solver.
Qed.


Lemma hasGlobalProfile_known (region : string) :
  (inference_types model !! region = None → inherited region = false) →
  Lib.hasGlobalProfile data id region =
    Return (includes "GLOBAL" (typesAt model region)).
Proof.
  intros Hkey. unfold Lib.hasGlobalProfile, typesAt.
  by rewrite (get_Some data id model Hmodel), (or_empty_get _ _ Hkey).
Qed.

Lemma hasGlobalProfile_inherited (region : string) :
  inference_types model !! region = None → inherited region = true →
  Lib.hasGlobalProfile data id region =
    Throw (TypeError_not_a_function "inferenceTypes.includes").
Proof.
  intros Hnone Hkey. unfold Lib.hasGlobalProfile.
  by rewrite (get_Some data id model Hmodel), (or_empty_get_inherited _ _ Hnone Hkey).
Qed.





Lemma globalModelId_known (region : string) :
  (inference_types model !! region = None → inherited region = false) →
  Lib.globalModelId data id region =
    if includes "GLOBAL" (typesAt model region) then Return ("global." +:+ id)
    else if includes region (regions model)
    then Throw (Lib.NoGlobalProfileError id region (typesAt model region))
    else Throw (Lib.UnavailableRegionError id region (regions model)).
Proof.
  intros Hkey. unfold Lib.globalModelId. rewrite (hasGlobalProfile_known region Hkey).
  simpl. destruct (includes "GLOBAL" _); simpl; [done|].
  rewrite (get_Some data id model Hmodel).
  destruct (includes region _); simpl; [|done].
  by rewrite (or_empty_get _ _ Hkey).
Qed.

Lemma globalModelId_inherited (region : string) :
  inference_types model !! region = None → inherited region = true →
  Lib.globalModelId data id region =
    Throw (TypeError_not_a_function "inferenceTypes.includes").
Proof.
  intros Hnone Hkey. unfold Lib.globalModelId.
  by rewrite (hasGlobalProfile_inherited region Hnone Hkey).
Qed.
End Resolver.


Lemma NoCrisSupportError_names (id region : string) (types : list string) :
  occurs id (Lib.NoCrisSupportError id region types) ∧
  occurs region (Lib.NoCrisSupportError id region types) ∧
  ∀ t, t ∈ types → occurs t (Lib.NoCrisSupportError id region types).
Proof.
  unfold Lib.NoCrisSupportError. split; [|split].
  - apply occurs_app_r, occurs_here.
  - do 3 apply occurs_app_r. apply occurs_here.
  - intros t Ht. do 5 apply occurs_app_r. by apply occurs_join.
Qed.

(** ** Claims about [crisModelId] *)

(** C1, as the code has it. For a model of the catalogue and a region of its
    region list whose tags contain a geo tag and also GLOBAL, [crisModelId]
    returns a geo tag of that tag set in lower case, a dot and the model id.
    This is not the GLOBAL-prefixed id unless the chosen tag itself reads
    "global" in lower case. *)
Theorem crisModelId_geo_priority (data : gmap string ModelInfo) (id : string)
    (model : ModelInfo) (region : string) :
  data !! id = Some model →
  region ∈ regions model →
  (∃ t, t ∈ typesAt model region ∧ geo_tag t) →
  "GLOBAL" ∈ typesAt model region →
  ∃ t, t ∈ typesAt model region ∧ geo_tag t ∧
    Lib.crisModelId data id region = Return (toLowerCase t +:+ "." +:+ id) ∧
    (toLowerCase t ≠ "global" →
     Lib.crisModelId data id region ≠ Return ("global." +:+ id)).
Proof.
  intros Hmodel Hregion (t & Ht & Hgeo) _.
  apply isGeoProfile_spec in Hgeo.
  destruct (filter_first _ _ _ Ht Hgeo) as (pre & t0 & post & Hsplit & Hpre & Ht0).
  exists t0. split; [rewrite Hsplit; set_solver|].
  apply isGeoProfile_spec in Ht0. split; [done|].
  assert (Lib.crisModelId data id region = Return (toLowerCase t0 +:+ "." +:+ id))
    as Hres.
  { eapply crisModelId_skips_prefix; [done..| |done].
    intros u Hu. by apply isGeoProfile_false, Hpre. }
  split; [done|]. rewrite Hres. intros Hne [= Heq]. apply Hne.
  by apply (string_app_inj_r _ "global" ("." +:+ id)).
Qed.

Lemma crisModelId_geo_priority_witness :
  Lib.crisModelId catalog sonnet "us-west-2" = Return ("us." +:+ sonnet) ∧
  Lib.crisModelId catalog sonnet "us-west-2" ≠ Return ("global." +:+ sonnet).
Proof.
  destruct (crisModelId_geo_priority catalog sonnet sonnet_info "us-west-2")
    as (t & _ & _ & Hres & Hne).
  - reflexivity.
  - in_list.
  - exists "US". split; [in_list|]. repeat split; discriminate.
  - in_list.
  - split; [reflexivity|]. apply Hne. intros Ht.
    rewrite Ht in Hres. vm_compute in Hres. discriminate.
Defined.

(** C1 fails as stated: every tag other than GLOBAL, ON_DEMAND and
    PROVISIONED counts as a geo tag, whatever its spelling. With the tags
    Global and GLOBAL recorded, the tag set has a geo tag and GLOBAL, and the
    result is the GLOBAL-prefixed id. *)
Lemma crisModelId_global_spelling_counterexample :
  mixed_case_catalog !! nova = Some mixed_case_info ∧
  "us-east-1" ∈ regions mixed_case_info ∧
  "Global" ∈ typesAt mixed_case_info "us-east-1" ∧
  geo_tag "Global" ∧
  "GLOBAL" ∈ typesAt mixed_case_info "us-east-1" ∧
  Lib.crisModelId mixed_case_catalog nova "us-east-1" = Return ("global." +:+ nova).
Proof.
  split; [reflexivity|]. split; [in_list|]. split; [in_list|].
  split; [repeat split; discriminate|]. split; [in_list|reflexivity].
Qed.

(** C2, as the code has it. For a model of the catalogue and a region of its
    region list, [crisModelId] returns the lower-cased FIRST geo tag in the
    recorded order of the tags of that region, a dot and the model id; the
    order of the tags decides, not the lexicographic order. *)
Theorem crisModelId_first_geo_tag (data : gmap string ModelInfo) (id : string)
    (model : ModelInfo) (region : string) (pre post : list string) (t0 : string) :
  data !! id = Some model →
  region ∈ regions model →
  typesAt model region = pre ++ t0 :: post →
  (∀ t, t ∈ pre → ¬ geo_tag t) →
  geo_tag t0 →
  Lib.crisModelId data id region = Return (toLowerCase t0 +:+ "." +:+ id).
Proof. intros. by eapply crisModelId_skips_prefix. Qed.

Lemma crisModelId_first_geo_tag_witness :
  Lib.crisModelId catalog nova "us-east-1" = Return ("us." +:+ nova).
Proof.
  apply (crisModelId_first_geo_tag catalog nova nova_info "us-east-1"
           [] ["EU"; "GLOBAL"] "US").
  - reflexivity.
  - in_list.
  - reflexivity.
  - intros t Ht. by apply elem_of_nil in Ht.
  - repeat split; discriminate.
Defined.

(** C2 fails as stated: with the geo tags US and EU recorded in that order,
    EU is the lexicographically smallest geo tag but the result carries us. *)
Lemma crisModelId_lex_smallest_counterexample :
  catalog !! nova = Some nova_info ∧
  "us-east-1" ∈ regions nova_info ∧
  List.filter Lib.isGeoProfile (typesAt nova_info "us-east-1") = ["US"; "EU"] ∧
  lex_smallest "EU" ["US"; "EU"] ∧
  Lib.crisModelId catalog nova "us-east-1" = Return "us.amazon.nova-2-lite-v1:0" ∧
  Lib.crisModelId catalog nova "us-east-1" ≠ Return (toLowerCase "EU" +:+ "." +:+ nova).
Proof.
  split; [reflexivity|].
  split; [in_list|].
  split; [reflexivity|].
  split.
  - split; [set_solver|]. intros u Hu.
    apply elem_of_cons in Hu as [->|Hu]; [by vm_compute|].
    apply list_elem_of_singleton in Hu as ->. by vm_compute.
  - split; [reflexivity|]. vm_compute. discriminate.
Qed.

(** *** A region without cross-region support *)

Lemma given_region (region : string) :
  region ≠ "" → App.given (Some region) = Some region.
Proof. intros Hne%String.eqb_neq. unfold App.given. by rewrite Hne. Qed.

(** A tag of the page's CRIS vocabulary is GLOBAL or a geo tag. *)
Lemma crisTypes_inv (t : string) :
  t ∈ App.Object_keys App.CRIS_REGIONS → t = "GLOBAL" ∨ geo_tag t.
Proof.
  unfold App.Object_keys, App.CRIS_REGIONS, geo_tag. simpl.
  rewrite !elem_of_cons, elem_of_nil.
  intros [->|[->|[->|[->|[->|[->|[->|[]]]]]]]]; auto; right; repeat split; discriminate.
Qed.

Lemma no_cris_tag (types : list string) :
  (∀ t, t ∈ types → ¬ geo_tag t) → "GLOBAL" ∉ types →
  existsb (λ type, includes type (App.Object_keys App.CRIS_REGIONS)) types = false.
Proof.
  intros Hgeo Hglobal.
  destruct (existsb _ types) eqn:E; [exfalso|done].
  apply existsb_exists in E as (t & Ht%list_elem_of_In & Hin%includes_spec).
  destruct (crisTypes_inv t Hin) as [->|Hgeo']; [done|]. by apply (Hgeo t).
Qed.

Lemma fmap_Some_eq {A B : Type} (f : A → B) (a : A) : f <$> Some a = Some (f a).
Proof. done. Qed.

Lemma hasCRIS_at (model : App.Model) (region : string) :
  region ≠ "" →
  App.hasCRIS model (Some region) =
    (λ types, existsb (λ type, includes type (App.Object_keys App.CRIS_REGIONS)) types)
      <$> (inference_types (App.info model) !! region).
Proof. intros Hne. unfold App.hasCRIS. by rewrite (given_region region Hne). Qed.

Lemma hasInferenceType_at (model : App.Model) (type region : string) :
  region ≠ "" →
  App.hasInferenceType model type (Some region) =
    includes type <$> (inference_types (App.info model) !! region).
Proof. intros Hne. unfold App.hasInferenceType. by rewrite (given_region region Hne). Qed.

(** C3, as the code has it. For a model of the catalogue and a region of its
    region list whose recorded tags contain neither a geo tag nor GLOBAL -
    the region being no inherited property name when nothing is recorded for
    it - [crisModelId] throws the error with the message written out below,
    in which the model id, the region and every recorded tag occur. [hasCRIS],
    called with that region, is [false] when tags are recorded for the region
    and [undefined] when none are, provided the region is not the empty
    string, which [hasCRIS] takes for no region at all. *)
Theorem crisModelId_no_cris_support (data : gmap string ModelInfo) (id : string)
    (model : ModelInfo) (region : string) :
  data !! id = Some model →
  region ∈ regions model →
  (∀ t, t ∈ typesAt model region → ¬ geo_tag t) →
  "GLOBAL" ∉ typesAt model region →
  (inference_types model !! region = None → inherited region = false) →
  (∃ message,
     Lib.crisModelId data id region = Throw message ∧
     message = "Model '" +:+ id +:+ "' does not support CRIS in region '" +:+
               region +:+ "'. Available inference types: " +:+
               join ", " (typesAt model region) ∧
     occurs id message ∧ occurs region message ∧
     ∀ t, t ∈ typesAt model region → occurs t message) ∧
  (region ≠ "" →
   truthy (App.hasCRIS (App.mkModel id model) (Some region)) = false ∧
   (is_Some (inference_types model !! region) →
    App.hasCRIS (App.mkModel id model) (Some region) = Some false) ∧
   (inference_types model !! region = None →
    App.hasCRIS (App.mkModel id model) (Some region) = None)).
Proof.
  intros Hmodel Hregion Hgeo Hglobal Hkey. split.
  - exists (Lib.NoCrisSupportError id region (typesAt model region)).
    split; [|split; [reflexivity|apply NoCrisSupportError_names]].
    rewrite (crisModelId_available data id model Hmodel region Hregion Hkey).
    rewrite filter_none.
    + apply includes_false in Hglobal. by rewrite Hglobal.
    + intros t Ht. by apply isGeoProfile_false, Hgeo.
  - intros Hne. rewrite (hasCRIS_at _ region Hne). cbn [App.info].
    unfold typesAt in Hgeo, Hglobal.
    destruct (inference_types model !! region) as [types|] eqn:Htypes.
    + change (default [] (Some types)) with types in Hgeo, Hglobal.
      rewrite fmap_Some_eq, (no_cris_tag types Hgeo Hglobal). by repeat split.
    + split; [done|]. split; [by intros [? ?]|done].
Qed.

Lemma crisModelId_no_cris_support_witness :
  Lib.crisModelId catalog sonnet "eu-west-1" =
    Throw ("Model 'anthropic.claude-3-5-sonnet-20241022-v2:0' does not support " +:+
           "CRIS in region 'eu-west-1'. Available inference types: ON_DEMAND") ∧
  App.hasCRIS (App.mkModel sonnet sonnet_info) (Some "eu-west-1") = Some false.
Proof.
  destruct (crisModelId_no_cris_support catalog sonnet sonnet_info "eu-west-1")
    as [(message & Hthrow & -> & _) Hcris].
  - reflexivity.
  - in_list.
  - change (typesAt sonnet_info "eu-west-1") with ["ON_DEMAND"].
    intros t Ht%list_elem_of_singleton [_ [Hne _]]. by subst t.
  - in_list.
  - discriminate.
  - split; [exact Hthrow|]. apply Hcris; [discriminate|].
    exists ["ON_DEMAND"]. reflexivity.
Defined.

(** C3 fails as stated. For the listed region with the empty name, whose
    tags are ON_DEMAND only, [crisModelId] throws the no-CRIS error while
    [hasCRIS] answers true, because it takes the empty string for no region
    and finds US elsewhere. For a listed region without an entry in the tag
    index [hasCRIS] is [undefined], not [false]. For a listed region without
    an entry whose name every object inherits, [crisModelId] throws a
    [TypeError] instead of the no-CRIS error. *)
Lemma hasCRIS_no_region_counterexample :
  blank_catalog !! nova = Some blank_info ∧
  ("" ∈ regions blank_info ∧
   typesAt blank_info "" = ["ON_DEMAND"] ∧
   Lib.crisModelId blank_catalog nova "" =
     Throw (Lib.NoCrisSupportError nova "" ["ON_DEMAND"]) ∧
   App.hasCRIS (App.mkModel nova blank_info) (Some "") = Some true) ∧
  ("eu-west-1" ∈ regions blank_info ∧
   typesAt blank_info "eu-west-1" = [] ∧
   Lib.crisModelId blank_catalog nova "eu-west-1" =
     Throw (Lib.NoCrisSupportError nova "eu-west-1" []) ∧
   App.hasCRIS (App.mkModel nova blank_info) (Some "eu-west-1") = None) ∧
  ("constructor" ∈ regions blank_info ∧
   typesAt blank_info "constructor" = [] ∧
   Lib.crisModelId blank_catalog nova "constructor" =
     Throw (TypeError_not_a_function "inferenceTypes.filter")).
Proof.
  split; [reflexivity|]. split; [|split].
  - split; [in_list|]. by repeat split.
  - split; [in_list|]. by repeat split.
  - split; [in_list|]. by repeat split.
Qed.

(** *** Availability *)




(** ** Claims about [globalModelId] *)




(** ** Unknown model ids *)




(** ** [hasGlobalProfile] *)




(** ** Sets and sorting *)

Lemma elem_of_set_add (x y : string) (s : list string) :
  y ∈ set_add x s ↔ y = x ∨ y ∈ s.
Proof.
  unfold set_add. destruct (includes x s) eqn:Hx.
  - apply includes_spec in Hx. split; [by right|]. by intros [->|?].
  - rewrite elem_of_app, list_elem_of_singleton. tauto.
Qed.

Lemma NoDup_set_add (x : string) (s : list string) :
  NoDup s → NoDup (set_add x s).
Proof.
  intros Hs. unfold set_add. destruct (includes x s) eqn:Hx; [done|].
  apply includes_false in Hx. apply NoDup_app. split; [done|]. split.
  - intros y Hy ->%list_elem_of_singleton. done.
  - apply NoDup_singleton.
Qed.

Lemma elem_of_set_add_all (xs s : list string) (y : string) :
  y ∈ set_add_all xs s ↔ y ∈ xs ∨ y ∈ s.
Proof.
  unfold set_add_all. revert s. induction xs as [|x xs IH]; intros s; simpl.
  - rewrite elem_of_nil. tauto.
  - rewrite IH, elem_of_set_add, elem_of_cons. tauto.
Qed.

Lemma NoDup_set_add_all (xs s : list string) :
  NoDup s → NoDup (set_add_all xs s).
Proof.
  unfold set_add_all. revert s. induction xs as [|x xs IH]; intros s Hs; simpl.
  - done.
  - by apply IH, NoDup_set_add.
Qed.

Lemma elem_of_union_all (ls : list (list string)) (s : list string) (y : string) :
  y ∈ foldl (λ types typeList, set_add_all typeList types) s ls ↔
  y ∈ s ∨ ∃ l, l ∈ ls ∧ y ∈ l.
Proof.
  revert s. induction ls as [|l ls IH]; intros s; simpl.
  - split; [by left|]. intros [?|(l & Hl & _)]; [done|]. by apply elem_of_nil in Hl.
  - rewrite IH, elem_of_set_add_all. split.
    + intros [[Hy|Hy]|(l' & Hl' & Hy)]; [|by left|].
      * right. exists l. split; [left|done].
      * right. exists l'. split; [by right|done].
    + intros [Hy|(l' & [->|Hl']%elem_of_cons & Hy)].
      * left. by right.
      * left. by left.
      * right. by exists l'.
Qed.


Lemma elem_of_Object_values {V : Type} (o : gmap string V) (v : V) :
  v ∈ App.Object_values o ↔ ∃ k, o !! k = Some v.
Proof.
  unfold App.Object_values. rewrite list_elem_of_fmap. split.
  - intros ([k v'] & -> & Hkv). exists k. by apply elem_of_map_to_list.
  - intros (k & Hk). exists (k, v). split; [done|]. by apply elem_of_map_to_list.
Qed.

Lemma existsb_includes (type : string) (ls : list (list string)) :
  existsb (λ types, includes type types) ls = true ↔ ∃ l, l ∈ ls ∧ type ∈ l.
Proof.
  rewrite existsb_exists. split.
  - intros (l & Hl%list_elem_of_In & Hin%includes_spec). by exists l.
  - intros (l & Hl & Hin). exists l. split; [by apply list_elem_of_In|].
    by apply includes_spec.
Qed.

(** ** The models of the page *)

(** [allModels] holds one model per entry of the catalogue document. *)
Lemma elem_of_init_allModels (data : gmap string ModelInfo) (model : App.Model) :
  model ∈ App.init_allModels data ↔ data !! App.id model = Some (App.info model).
Proof.
  unfold App.init_allModels. rewrite list_elem_of_fmap. split.
  - intros ([id model'] & -> & Hin). by apply elem_of_map_to_list.
  - intros Hl. exists (App.id model, App.info model). split; [by destruct model|].
    by apply elem_of_map_to_list.
Qed.

(** ** The inference-type index *)

Lemma elem_of_getInferenceTypes (model : App.Model) (t : string) :
  t ∈ App.getInferenceTypes model ↔
  ∃ region types, inference_types (App.info model) !! region = Some types ∧ t ∈ types.
Proof.
  unfold App.getInferenceTypes. rewrite elem_of_union_all, elem_of_nil. split.
  - intros [[]|(l & (region & Hl)%elem_of_Object_values & Ht)]. by exists region, l.
  - intros (region & types & Hl & Ht). right. exists types. split; [|done].
    apply elem_of_Object_values. by exists region.
Qed.

Lemma hasInferenceType_anywhere (model : App.Model) (type : string)
    (region : option string) :
  App.given region = None →
  App.hasInferenceType model type region =
    Some (bool_decide (type ∈ App.getInferenceTypes model)).
Proof.
  intros Hnone. unfold App.hasInferenceType. rewrite Hnone. f_equal.
  apply eq_true_iff_eq. rewrite bool_decide_eq_true, existsb_includes.
  rewrite elem_of_getInferenceTypes. split.
  - intros (l & (region' & Hl)%elem_of_Object_values & Ht). by exists region', l.
  - intros (region' & types & Hl & Ht). exists types. split; [|done].
    apply elem_of_Object_values. by exists region'.
Qed.




(** ** The profile data drawn by [showRegionMap] *)

Lemma elem_of_List_filter (f : string → bool) (l : list string) (x : string) :
  x ∈ List.filter f l ↔ x ∈ l ∧ f x = true.
Proof. by rewrite !list_elem_of_In, filter_In. Qed.

(** C8, as the code has it. When the model is found in [allModels], the
    filtered GLOBAL list holds exactly the regions of the aggregated list for
    which [hasInferenceType(model, crisType, region)] is true, and the
    filtered geo topology holds exactly the SOURCE regions of the aggregated
    one that pass that check, each with its aggregated target list unchanged:
    the target regions are not checked. *)
Theorem showRegionMap_filters_sources (CRIS_PROFILE_REGIONS : gmap string App.coverage)
    (allModels : list App.Model) (crisType modelId : string) (model : App.Model) :
  List.find (λ m, String.eqb (App.id m) modelId) allModels = Some model →
  (∀ regions',
     App.showRegionMap_profileData CRIS_PROFILE_REGIONS allModels crisType modelId
       = Some (App.Global regions') →
     ∃ regions, CRIS_PROFILE_REGIONS !! crisType = Some (App.Global regions) ∧
       ∀ region, region ∈ regions' ↔
         region ∈ regions ∧
         truthy (App.hasInferenceType model crisType (Some region)) = true) ∧
  (∀ sources',
     App.showRegionMap_profileData CRIS_PROFILE_REGIONS allModels crisType modelId
       = Some (App.Regional sources') →
     ∃ sources, CRIS_PROFILE_REGIONS !! crisType = Some (App.Regional sources) ∧
       ∀ source targets, sources' !! source = Some targets ↔
         sources !! source = Some targets ∧
         truthy (App.hasInferenceType model crisType (Some source)) = true).
Proof.
  intros Hfind. unfold App.showRegionMap_profileData. rewrite Hfind.
  destruct (CRIS_PROFILE_REGIONS !! crisType) as [[regions|sources]|];
    (split; [intros regions' [= <-]|intros sources' [= <-]]).
  - exists regions. split; [done|]. intros region. apply elem_of_List_filter.
  - exists sources. split; [done|]. intros source targets.
    rewrite map_lookup_filter_Some. simpl. by rewrite Is_true_true.
Qed.

Lemma showRegionMap_filters_sources_witness :
  (∀ region, region ∈ ["us-east-1"] ↔
     region ∈ ["us-east-1"; "us-west-2"] ∧
     truthy (App.hasInferenceType us_model "US" (Some region)) = true) ∧
  (∀ source targets,
     ({[ "us-east-1" := ["us-east-1"; "us-west-2"] ]} : gmap string (list string))
       !! source = Some targets ↔
     ({[ "us-east-1" := ["us-east-1"; "us-west-2"] ]} : gmap string (list string))
       !! source = Some targets ∧
     truthy (App.hasInferenceType us_model "US" (Some source)) = true).
Proof.
  split.
  - destruct (showRegionMap_filters_sources
                {[ "US" := App.Global ["us-east-1"; "us-west-2"] ]} [us_model] "US"
                (App.id us_model) us_model) as [Hglobal _]; [reflexivity|].
    destruct (Hglobal ["us-east-1"]) as (regions & Hlook & Hfilter); [reflexivity|].
    injection Hlook as <-. exact Hfilter.
  - destruct (showRegionMap_filters_sources us_coverage [us_model] "US"
                (App.id us_model) us_model) as [_ Hgeo]; [reflexivity|].
    destruct (Hgeo {[ "us-east-1" := ["us-east-1"; "us-west-2"] ]})
      as (sources & Hlook & Hfilter); [reflexivity|].
    injection Hlook as <-. exact Hfilter.
Defined.

(** C8 fails as stated: the model carries the US tag at us-east-1 only, yet
    the filtered US topology keeps the target us-west-2 of that source, a
    region at which the model does not carry the tag. *)
Lemma showRegionMap_target_counterexample :
  App.populateCrisRegions [us_model] = Return us_coverage ∧
  App.showRegionMap_profileData us_coverage [us_model] "US" (App.id us_model) =
    Some (App.Regional {[ "us-east-1" := ["us-east-1"; "us-west-2"] ]}) ∧
  "us-west-2" ∈ ["us-east-1"; "us-west-2"] ∧
  ("US" ∉ typesAt (App.info us_model) "us-west-2") ∧
  truthy (App.hasInferenceType us_model "US" (Some "us-west-2")) = false.
Proof.
  split; [by vm_compute|]. split; [by vm_compute|].
  split; [in_list|]. split; [in_list|reflexivity].
Qed.

(** ** The profile aggregator *)

(** *** Sorting *)

Lemma sort_Permutation (l : list string) : sort l ≡ₚ l.
Proof. apply merge_sort_Permutation. Qed.

Lemma sort_Sorted (l : list string) : Sorted String.le (sort l).
Proof. apply Sorted_merge_sort, _. Qed.

Lemma sort_strictly_sorted (l : list string) : NoDup l → strictly_sorted (sort l).
Proof.
  intros Hl. split; [|apply sort_Sorted]. by rewrite sort_Permutation.
Qed.


(** *** The loop over the models is a loop over their profile entries *)

Lemma foldM_app {A B : Type} (f : B → A → outcome B) (b : B) (l1 l2 : list A) :
  App.foldM f b (l1 ++ l2) = bind (App.foldM f b l1) (λ b', App.foldM f b' l2).
Proof.
  revert b. induction l1 as [|a l1 IH]; intros b; simpl; [done|].
  destruct (f b a) as [b'|message]; simpl; [apply IH|done].
Qed.

Lemma add_model_entries (regionSets : gmap string App.regionSet) (model : App.Model) :
  App.add_model regionSets model = App.foldM App.add_profile regionSets (entries_of model).
Proof. unfold App.add_model, entries_of. by destruct (inferenceProfile _). Qed.

Lemma foldM_add_model (regionSets : gmap string App.regionSet) (allModels : list App.Model) :
  App.foldM App.add_model regionSets allModels =
  App.foldM App.add_profile regionSets (entries allModels).
Proof.
  revert regionSets. induction allModels as [|m ms IH]; intros regionSets; [done|].
  unfold entries. rewrite bind_cons, foldM_app. simpl. rewrite add_model_entries.
  destruct (App.foldM App.add_profile regionSets (entries_of m)); simpl; [apply IH|done].
Qed.

Lemma elem_of_entries (allModels : list App.Model) (profile : string) (data : topology) :
  (profile, data) ∈ entries allModels ↔
  ∃ model, model ∈ allModels ∧ declares model profile data.
Proof.
  unfold entries, declares, entries_of. rewrite list_elem_of_bind. split.
  - intros (m & Hin & Hm). exists m. split; [done|].
    destruct (inferenceProfile (App.info m)) as [profiles|]; [|by apply elem_of_nil in Hin].
    exists profiles. split; [done|]. by apply elem_of_map_to_list.
  - intros (m & Hm & profiles & Hp & Hlook). exists m. split; [|done].
    rewrite Hp. by apply elem_of_map_to_list.
Qed.

(** *** Merging one source map *)

Lemma lookup_add_targets (props : gmap string (list string)) (source : string)
    (targets : list string) (s : string) :
  App.add_targets props (source, targets) !! s =
    if decide (source = s)
    then Some (set_add_all targets (default [] (props !! source)))
    else props !! s.
Proof.
  unfold App.add_targets. rewrite lookup_insert. case_decide as Hs.
  - destruct (props !! source) eqn:Hp; [by rewrite Hp|].
    by rewrite lookup_insert_eq.
  - destruct (props !! source); [done|]. by rewrite lookup_insert_ne.
Qed.

Lemma foldl_add_targets_other (l : list (string * list string))
    (props : gmap string (list string)) (s : string) :
  s ∉ l.*1 → foldl App.add_targets props l !! s = props !! s.
Proof.
  revert props. induction l as [|[source targets] l IH]; intros props Hs; [done|].
  rewrite fmap_cons in Hs. cbn [fst foldl] in *.
  apply not_elem_of_cons in Hs as [Hne Hs].
  rewrite IH by done. rewrite lookup_add_targets. by case_decide.
Qed.

Lemma foldl_add_targets_source (l : list (string * list string))
    (props : gmap string (list string)) (s : string) (targets : list string) :
  NoDup l.*1 → (s, targets) ∈ l →
  foldl App.add_targets props l !! s =
    Some (set_add_all targets (default [] (props !! s))).
Proof.
  revert props. induction l as [|[source ts] l IH]; intros props Hnodup Hin.
  { by apply elem_of_nil in Hin. }
  rewrite fmap_cons in Hnodup. cbn [fst foldl] in *.
  apply NoDup_cons in Hnodup as [Hfresh Hnodup].
  apply elem_of_cons in Hin as [[= -> ->]|Hin].
  - rewrite foldl_add_targets_other by done.
    rewrite lookup_add_targets. by case_decide.
  - rewrite IH by done. rewrite lookup_add_targets. case_decide as Heq; [|done].
    subst source. destruct Hfresh. apply list_elem_of_fmap. by exists (s, targets).
Qed.

(** The properties after [Object.entries(data).forEach(...)] has merged the
    source map [data] into them. *)
Lemma lookup_merge_targets (data props : gmap string (list string)) (s : string) :
  foldl App.add_targets props (map_to_list data) !! s =
    match data !! s with
    | Some targets => Some (set_add_all targets (default [] (props !! s)))
    | None => props !! s
    end.
Proof.
  destruct (data !! s) as [targets|] eqn:Hs.
  - apply foldl_add_targets_source; [apply NoDup_fst_map_to_list|].
    by apply elem_of_map_to_list.
  - apply foldl_add_targets_other. intros ([s' ts] & -> & Hin)%list_elem_of_fmap.
    apply elem_of_map_to_list in Hin. simpl in Hs. congruence.
Qed.

(** *** One profile entry *)

Lemma add_profile_flat (regionSets : gmap string App.regionSet) (profile : string)
    (rs : list string) :
  match regionSets !! profile with
  | Some (App.AObj _) =>
      App.add_profile regionSets (profile, Flat rs) =
        if rs is [] then Return regionSets else Throw App.TypeError_add
  | o =>
      ∃ regionSets',
        App.add_profile regionSets (profile, Flat rs) = Return regionSets' ∧
        regionSets' !! profile =
          Some (App.ASet
                  (set_add_all rs (if o is Some (App.ASet elems _) then elems else []))
                  (if o is Some (App.ASet _ props) then props else ∅)) ∧
        ∀ p, p ≠ profile → regionSets' !! p = regionSets !! p
  end.
Proof.
  unfold App.add_profile.
  destruct (regionSets !! profile) as [[elems props|props]|] eqn:Hp.
  - rewrite Hp. eexists. split; [done|]. split; [by rewrite lookup_insert_eq|].
    intros p Hne. by rewrite lookup_insert_ne.
  - rewrite Hp. by destruct rs.
  - rewrite lookup_insert_eq. eexists. split; [done|].
    split; [by rewrite lookup_insert_eq|].
    intros p Hne. by rewrite !lookup_insert_ne.
Qed.

Lemma add_profile_map (regionSets : gmap string App.regionSet) (profile : string)
    (data : gmap string (list string)) :
  ∃ regionSets',
    App.add_profile regionSets (profile, SourceMap data) = Return regionSets' ∧
    regionSets' !! profile =
      Some (App.with_props (default (App.AObj ∅) (regionSets !! profile))
              (foldl App.add_targets
                 (App.props_of (default (App.AObj ∅) (regionSets !! profile)))
                 (map_to_list data))) ∧
    ∀ p, p ≠ profile → regionSets' !! p = regionSets !! p.
Proof.
  unfold App.add_profile.
  destruct (regionSets !! profile) as [rset|] eqn:Hp.
  - rewrite Hp. eexists. split; [done|]. split; [by rewrite lookup_insert_eq|].
    intros p Hne. by rewrite lookup_insert_ne.
  - rewrite lookup_insert_eq. eexists. split; [done|].
    split; [by rewrite lookup_insert_eq|].
    intros p Hne. by rewrite !lookup_insert_ne.
Qed.

Lemma elems_of_with_props (rset : App.regionSet) (props : gmap string (list string)) :
  elems_of (App.with_props rset props) = elems_of rset.
Proof. by destruct rset. Qed.

Lemma props_of_with_props (rset : App.regionSet) (props : gmap string (list string)) :
  App.props_of (App.with_props rset props) = props.
Proof. by destruct rset. Qed.

Lemma sets_nodup_slot (regionSets : gmap string App.regionSet) (p : string) :
  sets_nodup regionSets →
  NoDup (elems_of (default (App.AObj ∅) (regionSets !! p))) ∧
  ∀ s, NoDup (default [] (App.props_of (default (App.AObj ∅) (regionSets !! p)) !! s)).
Proof.
  intros Hwf. destruct (regionSets !! p) as [rset|] eqn:Hp; simpl.
  - destruct (Hwf p rset Hp) as [Helems Hprops]. split; [done|]. intros s.
    destruct (App.props_of rset !! s) as [l|] eqn:Hs; simpl; [by eapply Hprops|].
    apply NoDup_nil_2.
  - split; [apply NoDup_nil_2|]. intros s. rewrite lookup_empty. apply NoDup_nil_2.
Qed.

Lemma add_profile_nodup (regionSets regionSets' : gmap string App.regionSet)
    (entry : string * topology) :
  sets_nodup regionSets →
  App.add_profile regionSets entry = Return regionSets' →
  sets_nodup regionSets'.
Proof.
  intros Hwf Hret. destruct entry as [p0 [rs|data]].
  - pose proof (add_profile_flat regionSets p0 rs) as Hflat.
    destruct (sets_nodup_slot regionSets p0 Hwf) as [Helems Hprops].
    destruct (regionSets !! p0) as [[elems props|props]|] eqn:Hp; simpl in *.
    + destruct Hflat as (S' & Hadd & Hat & Hother).
      rewrite Hadd in Hret. injection Hret as ->.
      intros p rset Hl. destruct (decide (p = p0)) as [->|Hne].
      * rewrite Hat in Hl. injection Hl as <-. simpl.
        split; [by apply NoDup_set_add_all|]. intros s l Hs.
        specialize (Hprops s). by rewrite Hs in Hprops.
      * rewrite Hother in Hl by done. by eapply Hwf.
    + destruct rs; rewrite Hflat in Hret; [|discriminate].
      by injection Hret as <-.
    + destruct Hflat as (S' & Hadd & Hat & Hother).
      rewrite Hadd in Hret. injection Hret as ->.
      intros p rset Hl. destruct (decide (p = p0)) as [->|Hne].
      * rewrite Hat in Hl. injection Hl as <-. simpl.
        split; [apply NoDup_set_add_all, NoDup_nil_2|]. intros s l Hs.
        by rewrite lookup_empty in Hs.
      * rewrite Hother in Hl by done. by eapply Hwf.
  - destruct (add_profile_map regionSets p0 data) as (S' & Hadd & Hat & Hother).
    rewrite Hadd in Hret. injection Hret as ->.
    destruct (sets_nodup_slot regionSets p0 Hwf) as [Helems Hprops].
    intros p rset Hl. destruct (decide (p = p0)) as [->|Hne].
    + rewrite Hat in Hl. injection Hl as <-.
      rewrite elems_of_with_props, props_of_with_props. split; [done|].
      intros s l. rewrite lookup_merge_targets.
      destruct (data !! s) as [targets|].
      * intros [= <-]. apply NoDup_set_add_all, Hprops.
      * intros Hs. specialize (Hprops s). by rewrite Hs in Hprops.
    + rewrite Hother in Hl by done. by eapply Hwf.
Qed.

Lemma foldM_add_profile_nodup (l : list (string * topology))
    (regionSets regionSets' : gmap string App.regionSet) :
  sets_nodup regionSets →
  App.foldM App.add_profile regionSets l = Return regionSets' →
  sets_nodup regionSets'.
Proof.
  revert regionSets. induction l as [|e l IH]; intros regionSets Hwf Hret; simpl in Hret.
  - by injection Hret as <-.
  - destruct (App.add_profile regionSets e) as [S1|] eqn:Hadd; [|discriminate].
    simpl in Hret. eapply IH; [|done]. by eapply add_profile_nodup.
Qed.

Lemma to_coverage_sorted (regionSets : gmap string App.regionSet) :
  sets_nodup regionSets → coverage_sorted (App.to_coverage <$> regionSets).
Proof.
  intros Hwf. split.
  - intros profile regions Hl. rewrite lookup_fmap in Hl.
    destruct (regionSets !! profile) as [[elems props|props]|] eqn:Hp;
      simpl in Hl; [|discriminate..].
    injection Hl as <-. apply sort_strictly_sorted.
    by destruct (Hwf profile _ Hp).
  - intros profile sources source targets Hl Hs. rewrite lookup_fmap in Hl.
    destruct (regionSets !! profile) as [[elems props|props]|] eqn:Hp;
      simpl in Hl; [discriminate| |discriminate].
    injection Hl as <-. rewrite lookup_fmap in Hs.
    destruct (props !! source) as [l|] eqn:Hl; simpl in Hs; [|discriminate].
    injection Hs as <-. apply sort_strictly_sorted.
    destruct (Hwf profile _ Hp) as [_ Hprops]. by eapply Hprops.
Qed.

(** Whenever the aggregation completes, every list of its result is sorted
    and free of duplicates. *)
Lemma populateCrisRegions_sorted (allModels : list App.Model)
    (cov : gmap string App.coverage) :
  App.populateCrisRegions allModels = Return cov → coverage_sorted cov.
Proof.
  unfold App.populateCrisRegions. rewrite foldM_add_model.
  destruct (App.foldM App.add_profile ∅ (entries allModels)) as [S|] eqn:Hfold;
    simpl; [|discriminate].
  intros [= <-]. apply to_coverage_sorted.
  eapply foldM_add_profile_nodup; [|done]. intros p rset Hl.
  by rewrite lookup_empty in Hl.
Qed.

Section Extensionality.
Variables (E1 E2 : list (string * topology)) (p : string).
Hypothesis Hext : ∀ d, (p, d) ∈ E1 ↔ (p, d) ∈ E2.

Lemma has_flat_ext : has_flat E1 p ↔ has_flat E2 p.
Proof. unfold has_flat. by setoid_rewrite Hext. Qed.

Lemma has_map_ext : has_map E1 p ↔ has_map E2 p.
Proof. unfold has_map. by setoid_rewrite Hext. Qed.

Lemma flat_region_ext (r : string) : flat_region E1 p r ↔ flat_region E2 p r.
Proof. unfold flat_region. by setoid_rewrite Hext. Qed.

Lemma has_source_ext (s : string) : has_source E1 p s ↔ has_source E2 p s.
Proof. unfold has_source. by setoid_rewrite Hext. Qed.

Lemma target_ext (s r : string) : target E1 p s r ↔ target E2 p s r.
Proof. unfold target. by setoid_rewrite Hext. Qed.

Lemma slot_inv_ext (o : option App.regionSet) : slot_inv E1 p o → slot_inv E2 p o.
Proof.
  destruct o as [[elems props|props]|]; simpl.
  - rewrite has_flat_ext, has_map_ext. intros (? & ? & Hr).
    split; [done|]. split; [done|]. intros r. by rewrite <-flat_region_ext.
  - rewrite has_flat_ext, has_map_ext. intros (? & ? & Hprops).
    split; [done|]. split; [done|]. intros s. specialize (Hprops s).
    destruct (props !! s) as [elems|].
    + rewrite <-has_source_ext. destruct Hprops as [? Hr]. split; [done|].
      intros r. by rewrite <-target_ext.
    + by rewrite <-has_source_ext.
  - by rewrite has_flat_ext, has_map_ext.
Qed.
End Extensionality.


Lemma Inv_empty : Inv [] ∅.
Proof.
  intros p. rewrite lookup_empty. simpl.
  split; intros [? H]; by apply elem_of_nil in H.
Qed.

Lemma elem_of_snoc_other (P : list (string * topology)) (p0 p : string)
    (d0 d : topology) :
  p ≠ p0 → (p, d) ∈ P ++ [(p0, d0)] ↔ (p, d) ∈ P.
Proof.
  intros Hne. rewrite elem_of_app, list_elem_of_singleton. split; [|by left].
  intros [?|[= ? ?]]; [done|]. by subst.
Qed.

Lemma has_source_has_map (E : list (string * topology)) (p s : string) :
  has_source E p s → has_map E p.
Proof. intros (t & ts & Ht & _). by exists t. Qed.

Lemma target_has_source (E : list (string * topology)) (p s r : string) :
  target E p s r → has_source E p s.
Proof. intros (t & ts & Ht & Hs & _). by exists t, ts. Qed.

Lemma flat_region_has_flat (E : list (string * topology)) (p r : string) :
  flat_region E p r → has_flat E p.
Proof. intros (rs & Hrs & _). by exists rs. Qed.

Lemma flat_region_snoc (P : list (string * topology)) (p0 r : string) (rs : list string) :
  flat_region (P ++ [(p0, Flat rs)]) p0 r ↔ flat_region P p0 r ∨ r ∈ rs.
Proof.
  unfold flat_region. setoid_rewrite elem_of_app.
  setoid_rewrite list_elem_of_singleton. split.
  - intros (rs' & [Hin|[= <-]] & Hr); [left; by exists rs'|by right].
  - intros [(rs' & Hin & Hr)|Hr]; [exists rs'; by auto|exists rs; by auto].
Qed.

Lemma has_source_snoc (P : list (string * topology)) (p0 s : string)
    (data : gmap string (list string)) :
  has_source (P ++ [(p0, SourceMap data)]) p0 s ↔
  has_source P p0 s ∨ is_Some (data !! s).
Proof.
  unfold has_source. setoid_rewrite elem_of_app.
  setoid_rewrite list_elem_of_singleton. split.
  - intros (t & ts & [Hin|[= <-]] & Hs); [left; by exists t, ts|right; by exists ts].
  - intros [(t & ts & Hin & Hs)|[ts Hs]]; [exists t, ts; by auto|exists data, ts; by auto].
Qed.

Lemma target_snoc (P : list (string * topology)) (p0 s r : string)
    (data : gmap string (list string)) :
  target (P ++ [(p0, SourceMap data)]) p0 s r ↔
  target P p0 s r ∨ ∃ ts, data !! s = Some ts ∧ r ∈ ts.
Proof.
  unfold target. setoid_rewrite elem_of_app.
  setoid_rewrite list_elem_of_singleton. split.
  - intros (t & ts & [Hin|[= <-]] & Hs & Hr);
      [left; by exists t, ts|right; by exists ts].
  - intros [(t & ts & Hin & Hs & Hr)|(ts & Hs & Hr)];
      [exists t, ts; by auto|exists data, ts; by auto].
Qed.

(** *** Merging an entry keeps the content invariant *)

Lemma add_profile_inv (P : list (string * topology)) (entry : string * topology)
    (regionSets : gmap string App.regionSet) :
  consistent (P ++ [entry]) → Inv P regionSets →
  ∃ regionSets',
    App.add_profile regionSets entry = Return regionSets' ∧
    Inv (P ++ [entry]) regionSets'.
Proof.
  intros Hcons HInv. destruct entry as [p0 [rs|data]].
  - assert (has_flat (P ++ [(p0, Flat rs)]) p0) as Hflat0.
    { exists rs. apply elem_of_app. right. by left. }
    assert (¬ has_map (P ++ [(p0, Flat rs)]) p0) as Hnomap.
    { intros [t Ht].
      assert ((p0, Flat rs) ∈ P ++ [(p0, Flat rs)]) as Hin
        by (apply elem_of_app; right; by left).
      by specialize (Hcons p0 _ _ Hin Ht). }
    pose proof (HInv p0) as H0. pose proof (add_profile_flat regionSets p0 rs) as Hadd.
    assert (∀ p, p ≠ p0 →
      slot_inv (P ++ [(p0, Flat rs)]) p (regionSets !! p)) as Hothers.
    { intros p Hne. apply (slot_inv_ext P); [|apply HInv].
      intros d. symmetry. by apply elem_of_snoc_other. }
    destruct (regionSets !! p0) as [[elems props|props]|] eqn:Hp0; simpl in H0.
    + destruct Hadd as (S' & Hadd & Hat & Hother). exists S'. split; [done|].
      intros p. destruct (decide (p = p0)) as [->|Hne].
      * rewrite Hat. simpl. split; [done|]. split; [done|]. intros r.
        rewrite elem_of_set_add_all, flat_region_snoc.
        destruct H0 as (_ & _ & Hr). rewrite Hr. tauto.
      * rewrite Hother by done. by apply Hothers.
    + destruct Hnomap. destruct H0 as [[t Ht] _]. exists t.
      apply elem_of_app. by left.
    + destruct Hadd as (S' & Hadd & Hat & Hother). exists S'. split; [done|].
      intros p. destruct (decide (p = p0)) as [->|Hne].
      * rewrite Hat. simpl. split; [done|]. split; [done|]. intros r.
        rewrite elem_of_set_add_all, flat_region_snoc, elem_of_nil.
        destruct H0 as [Hnoflat _].
        split; [tauto|]. intros [Hr%flat_region_has_flat|Hr]; [done|by left].
      * rewrite Hother by done. by apply Hothers.
  - assert (has_map (P ++ [(p0, SourceMap data)]) p0) as Hmap0.
    { exists data. apply elem_of_app. right. by left. }
    assert (¬ has_flat (P ++ [(p0, SourceMap data)]) p0) as Hnoflat.
    { intros [rs Hrs].
      assert ((p0, SourceMap data) ∈ P ++ [(p0, SourceMap data)]) as Hin
        by (apply elem_of_app; right; by left).
      by specialize (Hcons p0 _ _ Hin Hrs). }
    pose proof (HInv p0) as H0.
    destruct (add_profile_map regionSets p0 data) as (S' & Hadd & Hat & Hother).
    exists S'. split; [done|].
    intros p. destruct (decide (p = p0)) as [->|Hne].
    2:{ rewrite Hother by done. apply (slot_inv_ext P); [|apply HInv].
        intros d. symmetry. by apply elem_of_snoc_other. }
    rewrite Hat.
    assert (∃ props0,
      App.with_props (default (App.AObj ∅) (regionSets !! p0))
        (foldl App.add_targets
           (App.props_of (default (App.AObj ∅) (regionSets !! p0)))
           (map_to_list data))
      = App.AObj (foldl App.add_targets props0 (map_to_list data)) ∧
      props_inv P p0 props0) as (props0 & -> & Hprops0).
    { destruct (regionSets !! p0) as [[elems props|props]|] eqn:Hp0; simpl in H0.
      - destruct Hnoflat. destruct H0 as [[rs Hrs] _]. exists rs.
        apply elem_of_app. by left.
      - exists props. split; [done|]. by destruct H0 as (_ & _ & ?).
      - exists ∅. split; [done|]. intros s. rewrite lookup_empty.
        intros Hs%has_source_has_map. by destruct H0. }
    simpl. split; [done|]. split; [done|]. intros s.
    rewrite lookup_merge_targets. specialize (Hprops0 s).
    destruct (data !! s) as [targets|] eqn:Hs.
    + split; [apply has_source_snoc; right; by rewrite Hs|]. intros r.
      rewrite elem_of_set_add_all, target_snoc, Hs.
      assert (r ∈ default [] (props0 !! s) ↔ target P p0 s r) as ->.
      { destruct (props0 !! s) as [elems|]; simpl; [by apply Hprops0|].
        rewrite elem_of_nil. split; [done|]. by intros ?%target_has_source. }
      split.
      * intros [Hr|Hr]; [right; by exists targets|by left].
      * intros [Hr|(ts & [= <-] & Hr)]; [by right|by left].
    + destruct (props0 !! s) as [elems|].
      * destruct Hprops0 as [Hsrc Hr]. split; [apply has_source_snoc; by left|].
        intros r. rewrite target_snoc, Hs, Hr. split; [by left|].
        intros [?|(ts & [=] & _)]. done.
      * rewrite has_source_snoc, Hs. intros [?|[? [=]]]. done.
Qed.

Lemma consistent_subseteq (E1 E2 : list (string * topology)) :
  (∀ e, e ∈ E1 → e ∈ E2) → consistent E2 → consistent E1.
Proof. intros Hsub Hcons p d1 d2 H1 H2. eapply Hcons; by apply Hsub. Qed.

Lemma foldM_add_profile_inv (rest P : list (string * topology))
    (regionSets : gmap string App.regionSet) :
  consistent (P ++ rest) → Inv P regionSets →
  ∃ regionSets',
    App.foldM App.add_profile regionSets rest = Return regionSets' ∧
    Inv (P ++ rest) regionSets'.
Proof.
  revert P regionSets. induction rest as [|e rest IH]; intros P regionSets Hcons HInv.
  - exists regionSets. rewrite app_nil_r. by split.
  - destruct (add_profile_inv P e regionSets) as (S1 & Hadd & HInv1); [|done|].
    { eapply consistent_subseteq; [|done]. intros x.
      rewrite !elem_of_app, !elem_of_cons, elem_of_nil. tauto. }
    rewrite cons_middle, app_assoc in Hcons |- *.
    destruct (IH (P ++ [e]) S1 Hcons HInv1) as (S' & Hfold & HInv').
    exists S'. split; [|done]. simpl. by rewrite Hadd.
Qed.


Lemma shape_consistent_entries (allModels : list App.Model) :
  shape_consistent allModels → consistent (entries allModels).
Proof.
  intros Hshape p d1 d2 (m1 & Hm1 & Hd1)%elem_of_entries (m2 & Hm2 & Hd2)%elem_of_entries.
  exact (Hshape m1 m2 p d1 d2 Hm1 Hm2 Hd1 Hd2).
Qed.


Lemma populateCrisRegions_inv (allModels : list App.Model) :
  shape_consistent allModels →
  ∃ regionSets,
    App.populateCrisRegions allModels = Return (App.to_coverage <$> regionSets) ∧
    Inv (entries allModels) regionSets ∧ sets_nodup regionSets.
Proof.
  intros Hshape%shape_consistent_entries.
  destruct (foldM_add_profile_inv (entries allModels) [] ∅) as (S & Hfold & HInv);
    [done|apply Inv_empty|].
  exists S. unfold App.populateCrisRegions. rewrite foldM_add_model, Hfold.
  split; [done|]. split; [done|].
  eapply foldM_add_profile_nodup; [|done]. intros p rset Hl.
  by rewrite lookup_empty in Hl.
Qed.

(** The aggregation is a union: a region is in the list of a GLOBAL-shaped
    profile exactly when some model lists it under that profile, and in the
    target list of a source exactly when some model lists it for that source. *)
Lemma populateCrisRegions_content (allModels : list App.Model)
    (cov : gmap string App.coverage) :
  shape_consistent allModels →
  App.populateCrisRegions allModels = Return cov →
  (∀ profile regions, cov !! profile = Some (App.Global regions) →
     ∀ r, r ∈ regions ↔
       ∃ model rs, model ∈ allModels ∧ declares model profile (Flat rs) ∧ r ∈ rs) ∧
  (∀ profile sources source targets,
     cov !! profile = Some (App.Regional sources) →
     sources !! source = Some targets →
     ∀ r, r ∈ targets ↔
       ∃ model data ts, model ∈ allModels ∧ declares model profile (SourceMap data) ∧
                        data !! source = Some ts ∧ r ∈ ts).
Proof.
  intros Hshape Hrun.
  destruct (populateCrisRegions_inv allModels Hshape) as (S & Hrun' & HInv & _).
  rewrite Hrun' in Hrun. injection Hrun as <-. split.
  - intros profile regions Hl r. rewrite lookup_fmap in Hl. specialize (HInv profile).
    destruct (S !! profile) as [[elems props|props]|]; simpl in Hl; [|discriminate..].
    injection Hl as <-. rewrite sort_Permutation. destruct HInv as (_ & _ & ->).
    unfold flat_region. split.
    + intros (rs & (m & Hm & Hd)%elem_of_entries & Hr). by exists m, rs.
    + intros (m & rs & Hm & Hd & Hr). exists rs. split; [|done].
      apply elem_of_entries. by exists m.
  - intros profile sources source targets Hl Hs r. rewrite lookup_fmap in Hl.
    specialize (HInv profile).
    destruct (S !! profile) as [[elems props|props]|]; simpl in Hl;
      [discriminate| |discriminate].
    injection Hl as <-. rewrite lookup_fmap in Hs.
    destruct HInv as (_ & _ & Hprops). specialize (Hprops source).
    destruct (props !! source) as [l|]; simpl in Hs; [|discriminate].
    injection Hs as <-. rewrite sort_Permutation. destruct Hprops as [_ ->].
    unfold target. split.
    + intros (t & ts & (m & Hm & Hd)%elem_of_entries & Ht & Hr). by exists m, t, ts.
    + intros (m & t & ts & Hm & Hd & Ht & Hr). exists t, ts. split; [|done].
      apply elem_of_entries. by exists m.
Qed.

Lemma consistentb_sound (allModels : list App.Model) :
  consistentb (entries allModels) = true → shape_consistent allModels.
Proof.
  unfold consistentb. rewrite forallb_forall.
  intros Hall m1 m2 p d1 d2 Hm1 Hm2 Hd1 Hd2.
  assert ((p, d1) ∈ entries allModels) as H1 by (apply elem_of_entries; eauto).
  assert ((p, d2) ∈ entries allModels) as H2 by (apply elem_of_entries; eauto).
  apply list_elem_of_In in H1, H2.
  specialize (Hall _ H1). rewrite forallb_forall in Hall. specialize (Hall _ H2).
  simpl in Hall. rewrite String.eqb_refl in Hall. by apply Bool.eqb_prop.
Qed.




(** ** Further properties of the library *)

Lemma lower_ascii_idemp (c : ascii) : lower_ascii (lower_ascii c) = lower_ascii c.
Proof. by destruct c as [[] [] [] [] [] [] [] []]. Qed.

Lemma toLowerCase_idemp (s : string) : toLowerCase (toLowerCase s) = toLowerCase s.
Proof. induction s as [|c s IH]; simpl; [done|]. by rewrite lower_ascii_idemp, IH. Qed.

Lemma toLowerCase_app (s1 s2 : string) :
  toLowerCase (s1 +:+ s2) = toLowerCase s1 +:+ toLowerCase s2.
Proof. induction s1 as [|c s1 IH]; simpl; [done|]. by rewrite IH. Qed.

Lemma no_geo_filter (types : list string) :
  (∀ t, t ∈ types → ¬ geo_tag t) → List.filter Lib.isGeoProfile types = [].
Proof. intros Hgeo. apply filter_none. intros t Ht. by apply isGeoProfile_false, Hgeo. Qed.

(** With a region of the region list, a geo tag or GLOBAL recorded there is
    enough for [crisModelId] to return. *)
Lemma crisModelId_resolves (data : gmap string ModelInfo) (id : string)
    (model : ModelInfo) (region t : string) :
  data !! id = Some model → region ∈ regions model →
  t ∈ typesAt model region → geo_tag t ∨ t = "GLOBAL" →
  ∃ s, Lib.crisModelId data id region = Return s.
Proof.
  intros Hmodel Hregion Ht Hkind.
  rewrite (crisModelId_available data id model Hmodel region Hregion
             (recorded_own model region t Ht)).
  destruct (List.filter Lib.isGeoProfile (typesAt model region)) as [|t0 l] eqn:Hf;
    [|by eexists].
  destruct Hkind as [Hgeo| ->].
  - assert (t ∈ List.filter Lib.isGeoProfile (typesAt model region)) as Hin.
    { apply elem_of_List_filter. split; [done|]. by apply isGeoProfile_spec. }
    rewrite Hf in Hin. by apply elem_of_nil in Hin.
  - apply includes_spec in Ht. rewrite Ht. by eexists.
Qed.

(** X1. When GLOBAL is the only cross-region tag of an available region,
    [crisModelId] falls back to the GLOBAL-prefixed id. *)
Theorem crisModelId_global_fallback (data : gmap string ModelInfo) (id : string)
    (model : ModelInfo) (region : string) :
  data !! id = Some model →
  region ∈ regions model →
  (∀ t, t ∈ typesAt model region → ¬ geo_tag t) →
  "GLOBAL" ∈ typesAt model region →
  Lib.crisModelId data id region = Return ("global." +:+ id).
Proof.
  intros Hmodel Hregion Hgeo Hglobal.
  rewrite (crisModelId_available data id model Hmodel region Hregion
             (recorded_own model region "GLOBAL" Hglobal)).
  apply includes_spec in Hglobal. by rewrite no_geo_filter, Hglobal.
Qed.

Lemma crisModelId_global_fallback_witness :
  Lib.crisModelId catalog nova "eu-west-2" = Return "global.amazon.nova-2-lite-v1:0".
Proof.
  apply (crisModelId_global_fallback catalog nova nova_info "eu-west-2").
  - reflexivity.
  - in_list.
  - change (typesAt nova_info "eu-west-2") with ["GLOBAL"].
    intros t Ht%list_elem_of_singleton [Hne _]. by subst t.
  - in_list.
Defined.

(** X2. [crisModelId] returns an id exactly when the model is in the
    catalogue, the region is in its region list, and a geo tag or GLOBAL is
    recorded for the region; in every other case it throws. *)
Theorem crisModelId_returns_iff (data : gmap string ModelInfo) (id region : string) :
  (∃ s, Lib.crisModelId data id region = Return s) ↔
  ∃ model t, data !! id = Some model ∧ region ∈ regions model ∧
             t ∈ typesAt model region ∧ (geo_tag t ∨ t = "GLOBAL").
Proof.
  split.
  - intros [s Hs]. unfold Lib.crisModelId, get in Hs.
    destruct (data !! id) as [model|] eqn:Hmodel;
      [|destruct (inherited id); discriminate].
    destruct (includes region (regions model)) eqn:Hregion; simpl in Hs; [|discriminate].
    apply includes_spec in Hregion. unfold typesAt.
    destruct (inference_types model !! region) as [types|] eqn:Htypes; simpl in *;
      [|destruct (inherited region); discriminate].
    destruct (List.filter Lib.isGeoProfile types) as [|t0 l] eqn:Hf.
    + destruct (includes "GLOBAL" types) eqn:Hg; [|discriminate].
      apply includes_spec in Hg. exists model, "GLOBAL". rewrite Htypes. auto.
    + assert (t0 ∈ List.filter Lib.isGeoProfile types) as Hin
        by (rewrite Hf; left).
      apply elem_of_List_filter in Hin as [Hin Hgeo%isGeoProfile_spec].
      exists model, t0. rewrite Htypes. auto.
  - intros (model & t & Hmodel & Hregion & Ht & Hkind). by eapply crisModelId_resolves.
Qed.

(** X3. Whatever [crisModelId] returns is a lower-case prefix, a dot and the
    model id; it is never the bare model id. *)
Theorem crisModelId_result_shape (data : gmap string ModelInfo) (id region s : string) :
  Lib.crisModelId data id region = Return s →
  (∃ prefix, s = prefix +:+ "." +:+ id ∧ toLowerCase prefix = prefix) ∧ s ≠ id.
Proof.
  intros Hs.
  assert (∃ prefix, s = prefix +:+ "." +:+ id ∧ toLowerCase prefix = prefix)
    as (prefix & -> & Hlow).
  { unfold Lib.crisModelId in Hs.
    destruct (get data id) as [model| |]; [|discriminate..].
    destruct (negb _); [discriminate|].
    destruct (or_empty _) as [types| |]; [|discriminate..].
    destruct (List.filter _ _) as [|t0 l].
    - destruct (includes "GLOBAL" _); [|discriminate]. injection Hs as <-.
      by exists "global".
    - injection Hs as <-. exists (toLowerCase t0). split; [done|].
      apply toLowerCase_idemp. }
  split; [by exists prefix|]. intros Heq.
  apply (f_equal String.length) in Heq.
  rewrite !string_length_app in Heq. simpl in Heq. lia.
Qed.

Lemma crisModelId_result_shape_witness :
  (∃ prefix, "us." +:+ sonnet = prefix +:+ "." +:+ sonnet ∧ toLowerCase prefix = prefix) ∧
  "us." +:+ sonnet ≠ sonnet.
Proof.
  apply (crisModelId_result_shape catalog sonnet "us-east-1"). reflexivity.
Defined.

(** X4. For a region of the region list without a geo tag, [crisModelId]
    and [globalModelId] return the same id or both throw. *)
Theorem crisModelId_globalModelId_agree (data : gmap string ModelInfo) (id : string)
    (model : ModelInfo) (region s : string) :
  data !! id = Some model →
  region ∈ regions model →
  (∀ t, t ∈ typesAt model region → ¬ geo_tag t) →
  Lib.crisModelId data id region = Return s ↔
  Lib.globalModelId data id region = Return s.
Proof.
  intros Hmodel Hregion Hgeo.
  destruct (inference_types model !! region) as [types|] eqn:Htypes;
    [|destruct (inherited region) eqn:Hkey].
  - rewrite (crisModelId_available data id model Hmodel region Hregion),
      (globalModelId_known data id model Hmodel region), no_geo_filter
      by (done || by rewrite Htypes).
    apply includes_spec in Hregion. rewrite Hregion.
    by destruct (includes "GLOBAL" _).
  - by rewrite (crisModelId_inherited data id model Hmodel region Hregion Htypes Hkey),
      (globalModelId_inherited data id model Hmodel region Htypes Hkey).
  - rewrite (crisModelId_available data id model Hmodel region Hregion),
      (globalModelId_known data id model Hmodel region), no_geo_filter by done.
    apply includes_spec in Hregion. rewrite Hregion.
    by destruct (includes "GLOBAL" _).
Qed.

Lemma crisModelId_globalModelId_agree_witness :
  Lib.crisModelId catalog nova "eu-west-2" = Return ("global." +:+ nova) ↔
  Lib.globalModelId catalog nova "eu-west-2" = Return ("global." +:+ nova).
Proof.
  apply (crisModelId_globalModelId_agree catalog nova nova_info "eu-west-2").
  - reflexivity.
  - in_list.
  - change (typesAt nova_info "eu-west-2") with ["GLOBAL"].
    intros t Ht%list_elem_of_singleton [Hne _]. by subst t.
Defined.

(** X5. [globalModelId] returns exactly when [hasGlobalProfile] answers true,
    and then it returns the GLOBAL-prefixed id; for an unknown model, where
    [hasGlobalProfile] answers false, it throws. *)
Theorem globalModelId_iff_hasGlobalProfile (data : gmap string ModelInfo)
    (id region s : string) :
  Lib.globalModelId data id region = Return s ↔
  Lib.hasGlobalProfile data id region = Return true ∧ s = "global." +:+ id.
Proof.
  unfold Lib.globalModelId.
  destruct (Lib.hasGlobalProfile data id region) as [[]|message] eqn:Hhas; simpl.
  - split; [by intros [= <-]|by intros [_ ->]].
  - split; [|by intros [[=] _]].
    destruct (get data id) as [model| |]; [|discriminate..].
    destruct (negb _); [discriminate|]. by destruct (or_empty _).
  - split; [discriminate|by intros [[=] _]].
Qed.

Lemma filter_sublist (f : string → bool) (l : list string) :
  List.filter f l `sublist_of` l.
Proof.
  induction l as [|x l IH]; simpl; [done|].
  destruct (f x); by constructor.
Qed.

(** X6. Whenever [getInferenceProfiles] returns, [getInferenceTypes]
    returns a list, and the profiles are the tags of that list that belong
    to the profile vocabulary, in their recorded order. *)
Theorem getInferenceProfiles_sublist (data : gmap string ModelInfo) (id region : string)
    (profiles : list string) :
  Lib.getInferenceProfiles data id region = Return profiles →
  ∃ types,
    Lib.getInferenceTypes data id region = Return (Own types) ∧
    profiles `sublist_of` types ∧
    ∀ t, t ∈ profiles ↔ t ∈ types ∧ t ∈ Lib.profilePrefixes.
Proof.
  unfold Lib.getInferenceProfiles, Lib.getInferenceTypes.
  destruct (get data id) as [model| |]; [|discriminate|].
  - destruct (or_empty _) as [types| |]; [|discriminate..].
    intros [= <-]. exists types. split; [done|]. split; [apply filter_sublist|].
    intros t. rewrite elem_of_List_filter, <-(includes_spec t Lib.profilePrefixes).
    reflexivity.
  - intros [= <-]. exists []. split; [done|]. split; [done|].
    intros t. rewrite elem_of_nil. tauto.
Qed.

Lemma getInferenceProfiles_sublist_witness :
  ∃ types,
    Lib.getInferenceTypes catalog sonnet "us-west-2" = Return (Own types) ∧
    ["US"; "GLOBAL"] `sublist_of` types ∧
    ∀ t, t ∈ ["US"; "GLOBAL"] ↔ t ∈ types ∧ t ∈ Lib.profilePrefixes.
Proof.
  apply (getInferenceProfiles_sublist catalog sonnet "us-west-2"). reflexivity.
Defined.

(** X7. [isModelAvailable] answers true exactly when [getAvailableRegions]
    returns a list that holds the region; where [getAvailableRegions] throws,
    [isModelAvailable] answers false; and [isModelAvailable] throws exactly
    where [getAvailableRegions] returns [undefined]. *)
Theorem isModelAvailable_getAvailableRegions (data : gmap string ModelInfo)
    (id region : string) :
  (Lib.isModelAvailable data id region = Return true ↔
   ∃ rs, Lib.getAvailableRegions data id = Return (Own rs) ∧ region ∈ rs) ∧
  ((∃ message, Lib.getAvailableRegions data id = Throw message) ↔
   Lib.isModelAvailable data id region = Return false ∧ data !! id = None) ∧
  ((∃ message, Lib.isModelAvailable data id region = Throw message) ↔
   Lib.getAvailableRegions data id = Return Undefined).
Proof.
  unfold Lib.isModelAvailable, Lib.getAvailableRegions, get.
  destruct (data !! id) as [model|]; [|destruct (inherited id)].
  - split; [|split].
    + split.
      * intros [= Hin%includes_spec]. by exists (regions model).
      * intros (rs & [= <-] & Hin%includes_spec). by rewrite Hin.
    + split; [by intros [? [=]]|by intros [_ [=]]].
    + split; [by intros [? [=]]|discriminate].
  - split; [|split].
    + split; [discriminate|]. by intros (rs & [=] & _).
    + split; [by intros [? [=]]|by intros [[=] _]].
    + split; [done|]. intros _. by eexists.
  - split; [|split].
    + split; [discriminate|]. by intros (rs & [=] & _).
    + split; [done|]. intros _. by eexists.
    + split; [by intros [? [=]]|discriminate].
Qed.

(** X8. [hasGlobalProfile] answers true exactly when [getInferenceProfiles]
    lists GLOBAL for the region. *)
Theorem hasGlobalProfile_iff_listed (data : gmap string ModelInfo) (id region : string) :
  Lib.hasGlobalProfile data id region = Return true ↔
  ∃ profiles, Lib.getInferenceProfiles data id region = Return profiles ∧
              "GLOBAL" ∈ profiles.
Proof.
  unfold Lib.hasGlobalProfile, Lib.getInferenceProfiles.
  destruct (get data id) as [model| |].
  - destruct (or_empty _) as [types| |].
    + split.
      * intros [= Hg%includes_spec]. eexists. split; [done|].
        apply elem_of_List_filter. split; [done|]. reflexivity.
      * intros (profiles & [= <-] & [Hg _]%elem_of_List_filter).
        apply includes_spec in Hg. by rewrite Hg.
    + split; [discriminate|]. by intros (profiles & [=] & _).
    + split; [discriminate|]. by intros (profiles & [=] & _).
  - split; [discriminate|]. by intros (profiles & [=] & _).
  - split; [discriminate|]. intros (profiles & [= <-] & Hg).
    by apply elem_of_nil in Hg.
Qed.

(** ** Further properties of the page *)

(** *** Substring search *)

Lemma prefix_spec (s1 s2 : string) :
  String.prefix s1 s2 = true ↔ ∃ b, s2 = s1 +:+ b.
Proof.
  revert s2. induction s1 as [|c s1 IH]; intros s2; simpl.
  - destruct s2; split; eauto.
  - destruct s2 as [|c2 s2]; simpl.
    + split; [discriminate|]. by intros [b [=]].
    + destruct (ascii_dec c c2) as [->|Hne].
      * rewrite IH. split; [by intros [b ->]; exists b|]. intros [b [= ->]]. by exists b.
      * split; [discriminate|]. intros [b [= ? ?]]. done.
Qed.

(** [s.includes(search)] says that [search] occurs somewhere in [s]. *)
Lemma String_includes_spec (s search : string) :
  String_includes s search = true ↔ ∃ a b, s = a +:+ search +:+ b.
Proof.
  induction s as [|c s IH]; cbn [String_includes]; rewrite orb_true_iff, prefix_spec.
  - split.
    + intros [[b Hb]|[=]]. by exists "", b.
    + intros (a & b & Heq). left. destruct a; [by exists b|discriminate].
  - rewrite IH. split.
    + intros [[b Hb]|(a & b & ->)]; [by exists "", b|by exists (String c a), b].
    + intros ([|c' a] & b & Heq); simpl in Heq.
      * left. by exists b.
      * injection Heq as -> ->. right. by exists a, b.
Qed.

(** *** Tags at a region and tags anywhere *)

Lemma given_cases (region : option string) :
  App.given region = None ∨ ∃ r, r ≠ "" ∧ region = Some r ∧ App.given region = Some r.
Proof.
  destruct region as [r|]; [|by left]. unfold App.given.
  destruct (String.eqb r "") eqn:Hr; [by left|].
  apply String.eqb_neq in Hr. right. by exists r.
Qed.

(** A tag recorded at a region is recorded somewhere. *)
Lemma hasInferenceType_anywhere_of_region (model : App.Model) (type : string)
    (region : option string) :
  truthy (App.hasInferenceType model type region) = true →
  truthy (App.hasInferenceType model type None) = true.
Proof.
  destruct (given_cases region) as [Hnone|(r & Hne & -> & Hgiven)].
  - unfold App.hasInferenceType. by rewrite Hnone.
  - rewrite (hasInferenceType_at model type r Hne).
    rewrite (hasInferenceType_anywhere model type None) by done.
    destruct (inference_types (App.info model) !! r) as [types|] eqn:Hl; simpl; [|done].
    intros Hin%includes_spec. apply bool_decide_eq_true.
    apply elem_of_getInferenceTypes. by exists r, types.
Qed.

Lemma existsb_crisTypes (types : list string) :
  existsb (λ type, includes type (App.Object_keys App.CRIS_REGIONS)) types = true ↔
  ∃ type, type ∈ App.Object_keys App.CRIS_REGIONS ∧ type ∈ types.
Proof.
  rewrite existsb_exists. split.
  - intros (t & Ht%list_elem_of_In & Hk%includes_spec). by exists t.
  - intros (t & Hk & Ht). exists t. split; [by apply list_elem_of_In|].
    by apply includes_spec.
Qed.

Lemma hasCRIS_types (model : App.Model) (region : option string) :
  truthy (App.hasCRIS model region) = true ↔
  ∃ type, type ∈ App.Object_keys App.CRIS_REGIONS ∧
          truthy (App.hasInferenceType model type region) = true.
Proof.
  unfold App.hasCRIS, App.hasInferenceType.
  destruct (App.given region) as [r|].
  - destruct (inference_types (App.info model) !! r) as [types|]; simpl.
    + rewrite existsb_crisTypes. by setoid_rewrite includes_spec.
    + split; [discriminate|]. by intros (? & _ & [=]).
  - simpl. rewrite existsb_exists. split.
    + intros (types & Hin & (t & Hk & Ht)%existsb_crisTypes). exists t.
      split; [done|]. apply existsb_exists. exists types. split; [done|].
      by apply includes_spec.
    + intros (t & Hk & (types & Hin & Ht%includes_spec)%existsb_exists).
      exists types. split; [done|]. apply existsb_crisTypes. by exists t.
Qed.

(** X9. [hasCRIS] answers true exactly when [hasInferenceType] answers true
    for one of the types of [CRIS_REGIONS], with a region as without. *)
Theorem hasCRIS_iff_hasInferenceType (model : App.Model) (region : option string) :
  truthy (App.hasCRIS model region) = true ↔
  ∃ type, type ∈ App.Object_keys App.CRIS_REGIONS ∧
          truthy (App.hasInferenceType model type region) = true.
Proof. apply hasCRIS_types. Qed.

(** *** filterModels *)

Lemma elem_of_filterModels (allModels : list App.Model)
    (searchInput selectedRegion selectedType : string) (model : App.Model) :
  model ∈ App.filterModels allModels searchInput selectedRegion selectedType ↔
  model ∈ allModels ∧
  String_includes (toLowerCase (App.id model)) (toLowerCase searchInput) = true ∧
  (selectedRegion = "" ∨ selectedRegion ∈ regions (App.info model)) ∧
  truthy
    (if String.eqb selectedType "global-cris" then
       App.hasInferenceType model "GLOBAL" (Some selectedRegion)
     else if String.eqb selectedType "cris" then
       App.hasCRIS model (Some selectedRegion)
     else if String.eqb selectedType "on-demand" then
       App.hasInferenceType model "ON_DEMAND" (Some selectedRegion)
     else Some true) = true.
Proof.
  unfold App.filterModels. rewrite !list_elem_of_In, filter_In, <-!list_elem_of_In.
  rewrite !andb_true_iff, orb_true_iff, includes_spec.
  unfold truthy_string. rewrite negb_true_iff, negb_false_iff, String.eqb_eq. tauto.
Qed.

(** X11. Selecting a region only narrows the result: a model shown with a
    region selected is also shown, for the same search text and type, with
    "All Regions". *)
Theorem filterModels_region_narrows (allModels : list App.Model)
    (searchInput selectedRegion selectedType : string) (model : App.Model) :
  model ∈ App.filterModels allModels searchInput selectedRegion selectedType →
  model ∈ App.filterModels allModels searchInput "" selectedType.
Proof.
  rewrite !elem_of_filterModels. intros (Hin & Hsearch & _ & Htype).
  split; [done|]. split; [done|]. split; [by left|].
  destruct (String.eqb selectedType "global-cris").
  { eapply hasInferenceType_anywhere_of_region in Htype.
    unfold App.hasInferenceType in *. by simpl in *. }
  destruct (String.eqb selectedType "cris").
  { apply hasCRIS_types in Htype as (t & Hk & Ht).
    apply hasInferenceType_anywhere_of_region in Ht.
    apply hasCRIS_types. exists t. split; [done|].
    unfold App.hasInferenceType in *. by simpl in *. }
  destruct (String.eqb selectedType "on-demand"); [|done].
  eapply hasInferenceType_anywhere_of_region in Htype.
  unfold App.hasInferenceType in *. by simpl in *.
Qed.

Lemma filterModels_region_narrows_witness :
  us_model ∈ App.filterModels [us_model; eu_model] "LLAMA" "" "cris".
Proof.
  apply (filterModels_region_narrows [us_model; eu_model] "LLAMA" "us-east-1" "cris").
  change (us_model ∈ [us_model]). left.
Defined.

(** *** The page and the library on the same catalogue *)

(** X12. A model that the page keeps under the cross-region filter for a
    selected region is one for which [crisModelId] of the library, on the
    same catalogue and region, returns an id. *)
Theorem filterModels_cris_resolves (data : gmap string ModelInfo)
    (searchInput selectedRegion : string) (model : App.Model) :
  selectedRegion ≠ "" →
  model ∈ App.filterModels (App.init_allModels data) searchInput selectedRegion "cris" →
  ∃ s, Lib.crisModelId data (App.id model) selectedRegion = Return s.
Proof.
  intros Hne (Hin & _ & [?|Hregion] & Htype)%elem_of_filterModels; [done|].
  apply elem_of_init_allModels in Hin. simpl in Htype.
  rewrite (hasCRIS_at model selectedRegion Hne) in Htype.
  destruct (inference_types (App.info model) !! selectedRegion) as [types|] eqn:Hl;
    [|discriminate].
  simpl in Htype. apply existsb_crisTypes in Htype as (t & Hk & Ht).
  eapply (crisModelId_resolves data _ _ selectedRegion t); [done..| |].
  - unfold typesAt. by rewrite Hl.
  - destruct (crisTypes_inv t Hk); auto.
Qed.

Lemma filterModels_cris_resolves_witness :
  ∃ s, Lib.crisModelId explorer_data (App.id us_model) "us-east-1" = Return s.
Proof.
  apply (filterModels_cris_resolves explorer_data "" "us-east-1" us_model).
  - discriminate.
  - change (us_model ∈ [us_model]). left.
Defined.

(** X13. A model that the page keeps under the global filter for a selected
    region is one for which [globalModelId] of the library returns the
    GLOBAL-prefixed id for that region. *)
Theorem filterModels_global_resolves (data : gmap string ModelInfo)
    (searchInput selectedRegion : string) (model : App.Model) :
  selectedRegion ≠ "" →
  model ∈ App.filterModels (App.init_allModels data) searchInput selectedRegion
            "global-cris" →
  Lib.globalModelId data (App.id model) selectedRegion =
    Return ("global." +:+ App.id model).
Proof.
  intros Hne (Hin & _ & _ & Htype)%elem_of_filterModels.
  apply elem_of_init_allModels in Hin. simpl in Htype.
  rewrite (hasInferenceType_at model "GLOBAL" selectedRegion Hne) in Htype.
  destruct (inference_types (App.info model) !! selectedRegion) as [types|] eqn:Hl;
    [|discriminate].
  rewrite (globalModelId_known data _ _ Hin selectedRegion) by (by rewrite Hl).
  unfold typesAt. rewrite Hl. simpl in *. by rewrite Htype.
Qed.

Lemma filterModels_global_resolves_witness :
  Lib.globalModelId explorer_data (App.id eu_model) "eu-west-1" =
    Return ("global." +:+ App.id eu_model).
Proof.
  apply (filterModels_global_resolves explorer_data "PIXTRAL" "eu-west-1" eu_model).
  - discriminate.
  - change (eu_model ∈ [eu_model]). left.
Defined.

(** *** Finding a model by its id *)

Lemma find_by_id_other (l : list (string * ModelInfo)) (modelId : string) :
  modelId ∉ l.*1 →
  List.find (λ m, String.eqb (App.id m) modelId)
    ((λ entry, App.mkModel entry.1 entry.2) <$> l) = None.
Proof.
  induction l as [|[k v] l IH]; intros Hk; [done|].
  rewrite fmap_cons in Hk. cbn [fst] in Hk. apply not_elem_of_cons in Hk as [Hne Hk].
  rewrite fmap_cons. cbn [List.find App.id fst snd].
  apply not_eq_sym, String.eqb_neq in Hne. rewrite Hne. by apply IH.
Qed.

Lemma find_by_id_entry (l : list (string * ModelInfo)) (modelId : string)
    (info : ModelInfo) :
  NoDup l.*1 → (modelId, info) ∈ l →
  List.find (λ m, String.eqb (App.id m) modelId)
    ((λ entry, App.mkModel entry.1 entry.2) <$> l) = Some (App.mkModel modelId info).
Proof.
  induction l as [|[k v] l IH]; intros Hnodup Hin; [by apply elem_of_nil in Hin|].
  rewrite fmap_cons in Hnodup. cbn [fst] in Hnodup.
  apply NoDup_cons in Hnodup as [Hfresh Hnodup].
  rewrite fmap_cons. cbn [List.find App.id fst snd].
  apply elem_of_cons in Hin as [[= <- <-]|Hin].
  - by rewrite String.eqb_refl.
  - destruct (String.eqb k modelId) eqn:Hk; [|by apply IH].
    apply String.eqb_eq in Hk as ->. destruct Hfresh.
    apply list_elem_of_fmap. by exists (modelId, info).
Qed.

(** X14. Looking a model up in [allModels] by its id, as [showRegionMap] and
    [showAllRegions] do, finds the record the catalogue holds under that id,
    and finds nothing when the catalogue has no such id. *)
Theorem find_init_allModels (data : gmap string ModelInfo) (modelId : string) :
  List.find (λ m, String.eqb (App.id m) modelId) (App.init_allModels data) =
    App.mkModel modelId <$> data !! modelId.
Proof.
  unfold App.init_allModels. destruct (data !! modelId) as [info|] eqn:Hl; simpl.
  - apply find_by_id_entry; [apply NoDup_fst_map_to_list|].
    by apply elem_of_map_to_list.
  - apply find_by_id_other. intros ([k v] & -> & Hin)%list_elem_of_fmap.
    apply elem_of_map_to_list in Hin. simpl in Hl. congruence.
Qed.

(** *** populateRegionFilter *)

Lemma elem_of_seen_regions (allModels : list App.Model) (acc : list string) (r : string) :
  r ∈ foldl (λ acc (model : App.Model), set_add_all (regions (App.info model)) acc)
        acc allModels ↔
  r ∈ acc ∨ ∃ model, model ∈ allModels ∧ r ∈ regions (App.info model).
Proof.
  revert acc. induction allModels as [|m ms IH]; intros acc; simpl.
  - split; [by left|]. intros [?|(m & Hm & _)]; [done|]. by apply elem_of_nil in Hm.
  - rewrite IH, elem_of_set_add_all. split.
    + intros [[Hr|Hr]|(m' & Hm' & Hr)]; [|by left|].
      * right. exists m. split; [left|done].
      * right. exists m'. split; [by right|done].
    + intros [Hr|(m' & [->|Hm']%elem_of_cons & Hr)].
      * left. by right.
      * left. by left.
      * right. by exists m'.
Qed.

Lemma NoDup_seen_regions (allModels : list App.Model) (acc : list string) :
  NoDup acc →
  NoDup (foldl (λ acc (model : App.Model), set_add_all (regions (App.info model)) acc)
           acc allModels).
Proof.
  revert acc. induction allModels as [|m ms IH]; intros acc Hacc; simpl; [done|].
  by apply IH, NoDup_set_add_all.
Qed.

(** X15. The region dropdown starts with "All Regions", whose value is the
    empty string, followed by one option per region that some model lists,
    each once, in lexicographic order, with the region as value and text. *)
Theorem populateRegionFilter_options (allModels : list App.Model) :
  ∃ sortedRegions,
    App.populateRegionFilter allModels =
      ("", "All Regions") :: ((λ region, (region, region)) <$> sortedRegions) ∧
    strictly_sorted sortedRegions ∧
    ∀ r, r ∈ sortedRegions ↔
         ∃ model, model ∈ allModels ∧ r ∈ regions (App.info model).
Proof.
  eexists. split; [reflexivity|]. split.
  - apply sort_strictly_sorted, NoDup_seen_regions, NoDup_nil_2.
  - intros r. rewrite sort_Permutation, elem_of_seen_regions, elem_of_nil. tauto.
Qed.

(** *** showAllRegions *)

Lemma elem_of_modelTypes (inference : gmap string (list string))
    (rs acc : list string) (t : string) :
  t ∈ foldl (λ acc r, set_add_all (default [] (inference !! r)) acc) acc rs ↔
  t ∈ acc ∨ ∃ r, r ∈ rs ∧ t ∈ default [] (inference !! r).
Proof.
  revert acc. induction rs as [|r rs IH]; intros acc; simpl.
  - split; [by left|]. intros [?|(r & Hr & _)]; [done|]. by apply elem_of_nil in Hr.
  - rewrite IH, elem_of_set_add_all. split.
    + intros [[Ht|Ht]|(r' & Hr' & Ht)]; [|by left|].
      * right. exists r. split; [left|done].
      * right. exists r'. split; [by right|done].
    + intros [Ht|(r' & [->|Hr']%elem_of_cons & Ht)].
      * left. by right.
      * left. by left.
      * right. by exists r'.
Qed.

(** A test succeeds on the collected types exactly when it succeeds on the
    types of one of the regions. *)
Lemma existsb_modelTypes (P : string → bool) (inference : gmap string (list string))
    (rs : list string) :
  existsb P (foldl (λ acc r, set_add_all (default [] (inference !! r)) acc) [] rs) = true ↔
  ∃ r, r ∈ rs ∧ existsb P (default [] (inference !! r)) = true.
Proof.
  rewrite existsb_exists. setoid_rewrite existsb_exists.
  setoid_rewrite <-list_elem_of_In. setoid_rewrite elem_of_modelTypes. split.
  - intros (t & [Ht|(r & Hr & Ht)] & HP); [by apply elem_of_nil in Ht|].
    exists r. split; [done|]. by exists t.
  - intros (r & Hr & t & Ht & HP). exists t. split; [|done]. right. by exists r.
Qed.

(** X16. In the regions modal an entry of the legend is shown exactly when
    the icon it explains is shown in the row of some region, and the rows are
    the regions of the model's region list, in their order. *)
Theorem showAllRegions_legend (allModels : list App.Model) (modelId : string)
    (hasGlobal hasCris hasOnDemand : bool) (rows : list App.RegionRow) :
  App.showAllRegions allModels modelId = Some (hasGlobal, hasCris, hasOnDemand, rows) →
  ∃ model,
    List.find (λ m, String.eqb (App.id m) modelId) allModels = Some model ∧
    App.row_region <$> rows = regions (App.info model) ∧
    (hasGlobal = true ↔ ∃ row, row ∈ rows ∧ App.isGlobal row = true) ∧
    (hasCris = true ↔ ∃ row, row ∈ rows ∧ App.isCris row = true) ∧
    (hasOnDemand = true ↔ ∃ row, row ∈ rows ∧ App.isOnDemand row = true).
Proof.
  unfold App.showAllRegions.
  destruct (List.find _ allModels) as [model|]; [|discriminate].
  intros [= <- <- <- <-]. exists model. split; [done|]. split.
  { rewrite <-list_fmap_compose. by rewrite <-(list_fmap_id (regions _)) at 2. }
  unfold includes. rewrite !existsb_modelTypes.
  setoid_rewrite list_elem_of_fmap.
  repeat split.
  all: try (intros (r & Hr & HP); eexists; split; [by exists r|done]).
  all: by intros (row & (r & -> & Hr) & HP); exists r.
Qed.

Lemma showAllRegions_legend_witness :
  ∃ model,
    List.find (λ m, String.eqb (App.id m) (App.id us_model)) [us_model; eu_model]
      = Some model ∧
    App.row_region <$> [App.mkRegionRow "us-east-1" false true true;
                        App.mkRegionRow "us-west-2" false false true]
      = regions (App.info model) ∧
    (false = true ↔
     ∃ row, row ∈ [App.mkRegionRow "us-east-1" false true true;
                   App.mkRegionRow "us-west-2" false false true] ∧
            App.isGlobal row = true) ∧
    (true = true ↔
     ∃ row, row ∈ [App.mkRegionRow "us-east-1" false true true;
                   App.mkRegionRow "us-west-2" false false true] ∧
            App.isCris row = true) ∧
    (true = true ↔
     ∃ row, row ∈ [App.mkRegionRow "us-east-1" false true true;
                   App.mkRegionRow "us-west-2" false false true] ∧
            App.isOnDemand row = true).
Proof.
  apply (showAllRegions_legend [us_model; eu_model] (App.id us_model)).
  reflexivity.
Defined.

(** *** The badges of a card *)

Lemma CRIS_REGIONS_at_key (type : string) :
  type ∈ App.Object_keys App.CRIS_REGIONS →
  truthy_property (App.CRIS_REGIONS_at type) = true.
Proof.
  unfold App.Object_keys, App.CRIS_REGIONS. simpl.
  rewrite !elem_of_cons, elem_of_nil.
  by intros [->|[->|[->|[->|[->|[->|[->|[]]]]]]]].
Qed.

(** X17. A model that the page keeps under the cross-region filter has, on
    its card, a cross-region badge that is not disabled, whatever region is
    selected. *)
Theorem filterModels_cris_badge (allModels : list App.Model)
    (searchInput selectedRegion : string) (model : App.Model) :
  model ∈ App.filterModels allModels searchInput selectedRegion "cris" →
  ∃ type, (type, false) ∈ App.renderModels_crisBadges model selectedRegion.
Proof.
  intros (_ & _ & _ & Htype)%elem_of_filterModels. simpl in Htype.
  apply hasCRIS_types in Htype as (t & Hk & Ht). exists t.
  unfold App.renderModels_crisBadges. apply list_elem_of_fmap. exists t. split.
  - by rewrite Ht, andb_false_r.
  - apply elem_of_List_filter. split; [|by apply CRIS_REGIONS_at_key].
    apply hasInferenceType_anywhere_of_region in Ht.
    rewrite (hasInferenceType_anywhere model t None) in Ht by done.
    by apply bool_decide_eq_true in Ht.
Qed.

Lemma filterModels_cris_badge_witness :
  ∃ type, (type, false) ∈ App.renderModels_crisBadges us_model "us-east-1".
Proof.
  apply (filterModels_cris_badge [us_model; eu_model] "" "us-east-1" us_model).
  change (us_model ∈ [us_model]). left.
Defined.

(** ** Further properties of the aggregator *)






(** *** What the map modal draws *)

Lemma filter_strictly_sorted (f : string → bool) (l : list string) :
  strictly_sorted l → strictly_sorted (List.filter f l).
Proof.
  intros [Hnodup Hsorted]. split.
  - eapply sublist_NoDup; [done|apply filter_sublist].
  - apply Sorted_StronglySorted in Hsorted; [|apply _].
    apply StronglySorted_Sorted.
    induction Hsorted as [|x l Hl IH Hx]; simpl; [constructor|].
    destruct (f x); [|apply IH; by apply NoDup_cons in Hnodup as [_ ?]].
    constructor; [apply IH; by apply NoDup_cons in Hnodup as [_ ?]|].
    apply List.Forall_forall. intros y Hy. apply filter_In in Hy as [Hy _].
    rewrite List.Forall_forall in Hx. by apply Hx.
Qed.

(** X20. After aggregation with consistent shapes, the list that the map
    modal draws for a GLOBAL-shaped profile and a model of the page is sorted
    and free of duplicates, and each of its regions is listed under that
    profile by some model and carries the profile's tag for this model. *)
Theorem showRegionMap_global_regions (allModels : list App.Model)
    (cov : gmap string App.coverage) (crisType modelId : string)
    (model : App.Model) (regions' : list string) :
  shape_consistent allModels →
  App.populateCrisRegions allModels = Return cov →
  List.find (λ m, String.eqb (App.id m) modelId) allModels = Some model →
  App.showRegionMap_profileData cov allModels crisType modelId
    = Some (App.Global regions') →
  strictly_sorted regions' ∧
  ∀ r, r ∈ regions' →
    (∃ m rs, m ∈ allModels ∧ declares m crisType (Flat rs) ∧ r ∈ rs) ∧
    truthy (App.hasInferenceType model crisType (Some r)) = true.
Proof.
  intros Hshape Hrun Hfind. unfold App.showRegionMap_profileData. rewrite Hfind.
  destruct (cov !! crisType) as [[regions|sources]|] eqn:Hl; [|discriminate..].
  intros [= <-]. split.
  - apply filter_strictly_sorted.
    by apply (populateCrisRegions_sorted allModels cov Hrun) in Hl.
  - intros r [Hr Htag]%elem_of_List_filter. split; [|done].
    by apply (proj1 (populateCrisRegions_content allModels cov Hshape Hrun) crisType regions Hl).
Qed.

Lemma showRegionMap_global_regions_witness :
  strictly_sorted ["eu-west-1"] ∧
  ∀ r, r ∈ ["eu-west-1"] →
    (∃ m rs, m ∈ [us_model; eu_model] ∧ declares m "GLOBAL" (Flat rs) ∧ r ∈ rs) ∧
    truthy (App.hasInferenceType eu_model "GLOBAL" (Some r)) = true.
Proof.
  apply (showRegionMap_global_regions [us_model; eu_model]
           {[ "US" := App.Regional {[ "us-east-1" := ["us-east-1"; "us-west-2"] ]};
              "EU" := App.Regional
                        {[ "eu-west-1" := ["eu-central-1"; "eu-west-1"; "eu-west-3"] ]};
              "GLOBAL" := App.Global ["eu-west-1"; "us-east-1"; "us-west-2"] ]}
           "GLOBAL" (App.id eu_model) eu_model).
  - apply consistentb_sound. vm_compute. reflexivity.
  - vm_compute. reflexivity.
  - reflexivity.
  - vm_compute. reflexivity.
Defined.

(** *** The aggregator before source maps *)

Lemma App1_add_model_entries (regionSets : gmap string (list string)) (model : App.Model) :
  App1.add_model regionSets model =
  App.foldM App1.add_profile regionSets (entries_of model).
Proof. unfold App1.add_model, entries_of. by destruct (inferenceProfile _). Qed.

Lemma App1_foldM_add_model (regionSets : gmap string (list string))
    (allModels : list App.Model) :
  App.foldM App1.add_model regionSets allModels =
  App.foldM App1.add_profile regionSets (entries allModels).
Proof.
  revert regionSets. induction allModels as [|m ms IH]; intros regionSets; [done|].
  unfold entries. rewrite bind_cons, foldM_app. simpl. rewrite App1_add_model_entries.
  destruct (App.foldM App1.add_profile regionSets (entries_of m)); simpl; [apply IH|done].
Qed.

(** On an array both revisions take the same step, a [Set] of the later one
    standing for the [Set] of the earlier one. *)
Lemma add_profile_flat_agree (regionSets : gmap string (list string))
    (profile : string) (rs : list string) :
  ∃ regionSets',
    App1.add_profile regionSets (profile, Flat rs) = Return regionSets' ∧
    App.add_profile ((λ l, App.ASet l ∅) <$> regionSets) (profile, Flat rs) =
      Return ((λ l, App.ASet l ∅) <$> regionSets').
Proof.
  unfold App1.add_profile, App.add_profile. rewrite lookup_fmap.
  destruct (regionSets !! profile) as [l|] eqn:Hl; simpl.
  - rewrite Hl, lookup_fmap, Hl. simpl. eexists. split; [done|].
    by rewrite fmap_insert.
  - rewrite !lookup_insert_eq. simpl. eexists. split; [done|].
    by rewrite !fmap_insert.
Qed.


Lemma foldM_add_profile_throws (l : list (string * topology))
    (regionSets : gmap string (list string)) :
  (∃ p t, (p, SourceMap t) ∈ l) →
  App.foldM App1.add_profile regionSets l = Throw App1.TypeError_forEach.
Proof.
  revert regionSets. induction l as [|[p d] l IH]; intros regionSets (q & t & Hin).
  - by apply elem_of_nil in Hin.
  - destruct d as [rs|t']; [|done].
    destruct (add_profile_flat_agree regionSets p rs) as (S1 & Hold & _).
    cbn [App.foldM]. rewrite Hold. simpl. apply IH.
    apply elem_of_cons in Hin as [[=]|Hin]. by exists q, t.
Qed.



(** X22. The earlier aggregator throws as soon as some model declares a
    profile as a source map, whatever the order of the models. *)
Theorem populateCrisRegions_first_revision_throws (allModels : list App.Model) :
  (∃ model profile targets,
     model ∈ allModels ∧ declares model profile (SourceMap targets)) →
  App1.populateCrisRegions allModels = Throw App1.TypeError_forEach.
Proof.
  intros (m & p & t & Hm & Hd). unfold App1.populateCrisRegions.
  rewrite App1_foldM_add_model, foldM_add_profile_throws; [done|].
  exists p, t. apply elem_of_entries. by exists m.
Qed.

Lemma populateCrisRegions_first_revision_throws_witness :
  App1.populateCrisRegions [flat_model; map_model] = Throw App1.TypeError_forEach.
Proof.
  apply populateCrisRegions_first_revision_throws.
  exists map_model, "APAC", {[ "ap-south-1" := ["ap-northeast-1"; "ap-south-1"] ]}.
  split; [right; left|]. eexists. split; reflexivity.
Defined.
